(** * Microloan fraud detector: graph construction, cycle filter, highlighting

    A shallow embedding of [consumer.py]: the loan table, the directed graph
    that [build_graph] fills through [nx.DiGraph.add_edge], the fraud signals
    of [detect_fraud] and the annotated network of [visualize_graph].

    Python dictionaries keep insertion order and the program iterates over
    them ([G.nodes()], [G.edges(data=True)]), so they are association lists
    here: order is part of the value. *)

From Stdlib Require Import List String Bool Arith Lia ZArith QArith Lqa
  Permutation DecimalString DecimalNat.
Import ListNotations.
Close Scope Q_scope.
Open Scope string_scope.
Open Scope list_scope.

(** ** Insertion-ordered dictionaries with string keys *)

Module PyDict.

Section Dict.
Variable V : Type.

Definition t := list (string * V).

Definition keys (d : t) : list string := map fst d.

(** [d.get(k)] *)
Fixpoint get (k : string) (d : t) : option V :=
  match d with
  | [] => None
  | (k', v) :: d' => if String.eqb k k' then Some v else get k d'
  end.

(** [k in d] *)
Definition contains (k : string) (d : t) : bool :=
  match get k d with Some _ => true | None => false end.

(** [d[k] = v]: an existing key keeps its position, a new key goes last. *)
Fixpoint set (k : string) (v : V) (d : t) : t :=
  match d with
  | [] => [(k, v)]
  | (k', v') :: d' =>
      if String.eqb k k' then (k, v) :: d' else (k', v') :: set k v d'
  end.
End Dict.

Arguments get {V} k d.
Arguments contains {V} k d.
Arguments set {V} k v d.
Arguments keys {V} d.

End PyDict.

(** ** The loan table

    One row of the data frame built by [generate_data]: the columns
    [Lender], [Borrower], [Amount], [Label].  Amounts are decimal numbers
    with two places; they are only stored and copied, never computed with. *)

Record Loan : Type := mkLoan {
  Lender : string;
  Borrower : string;
  Amount : Q;
  Label : string
}.

Definition DataFrame := list Loan.

(** ** [nx.DiGraph]

    The graph class comes from networkx.  Its state is the dict of dicts
    [_adj]: node -> (successor -> attribute dict); the node dict [_node] has
    the same keys in the same order, since [add_edge] fills both together.
    The attribute dict of an edge holds the two keys the program writes,
    [weight] and [label]. *)

Record EdgeData : Type := mkEdgeData {
  weight : Q;
  label : string
}.

Definition DiGraph := PyDict.t (PyDict.t EdgeData).

Definition empty_graph : DiGraph := [].

(** [G.nodes()] *)
Definition nodes (G : DiGraph) : list string := PyDict.keys G.

(** [G[u]]: the successor dict of [u] (empty when [u] is no node). *)
Definition adj (G : DiGraph) (u : string) : PyDict.t EdgeData :=
  match PyDict.get u G with Some nbrs => nbrs | None => [] end.

Definition successors (G : DiGraph) (u : string) : list string :=
  PyDict.keys (adj G u).

(** [G.has_edge(u, v)] *)
Definition has_edge (G : DiGraph) (u v : string) : bool :=
  PyDict.contains v (adj G u).

(** [G.get_edge_data(u, v)] *)
Definition get_edge_data (G : DiGraph) (u v : string) : option EdgeData :=
  PyDict.get v (adj G u).

(** [G.edges(data=True)]: for each node in order, each successor in order. *)
Definition edges (G : DiGraph) : list (string * string * EdgeData) :=
  flat_map (fun '(n, nbrs) => map (fun '(nbr, dd) => (n, nbr, dd)) nbrs) G.

Definition out_degree (G : DiGraph) (v : string) : nat :=
  List.length (adj G v).

Definition in_degree (G : DiGraph) (v : string) : nat :=
  List.length (filter (fun '(_, nbrs) => PyDict.contains v nbrs) G).

(** The first half of [add_edge]: [if u not in self._succ: self._succ[u] = {}]. *)
Definition add_node_if_absent (n : string) (G : DiGraph) : DiGraph :=
  if PyDict.contains n G then G else PyDict.set n [] G.

(** [G.add_edge(u, v, weight=w, label=l)]:
    [datadict = self._adj[u].get(v, {}); datadict.update(attr);
     self._succ[u][v] = datadict].  Both keys of [attr] are always given, so
    the updated dict is [attr] whatever the edge held before. *)
Definition add_edge (u v : string) (attr : EdgeData) (G : DiGraph) : DiGraph :=
  let G1 := add_node_if_absent u G in
  let G2 := add_node_if_absent v G1 in
  PyDict.set u (PyDict.set v attr (adj G2 u)) G2.

(** ** [build_graph] *)

Definition row_attr (row : Loan) : EdgeData :=
  {| weight := Amount row; label := Label row |}.

Definition build_graph (df : DataFrame) : DiGraph :=
  fold_left
    (fun G row => add_edge (Lender row) (Borrower row) (row_attr row) G)
    df empty_graph.

(** Rows of the table that go from [u] to [v]. *)
Definition is_pair (u v : string) (row : Loan) : bool :=
  String.eqb (Lender row) u && String.eqb (Borrower row) v.

Definition rows_of_pair (u v : string) (df : DataFrame) : list Loan :=
  filter (is_pair u v) df.

(** Edges of the graph that go from [u] to [v]. *)
Definition is_edge_of (u v : string) (e : string * string * EdgeData) : bool :=
  let '(a, b, _) := e in String.eqb a u && String.eqb b v.

Definition edges_between (G : DiGraph) (u v : string)
  : list (string * string * EdgeData) :=
  filter (is_edge_of u v) (edges G).

(** Well-formed graphs: what every sequence of [add_edge] (and [add_node])
    calls maintains.  Keys are unique, and every successor is a node. *)
Definition wf (G : DiGraph) : Prop :=
  NoDup (nodes G) /\
  forall n nbrs, In (n, nbrs) G ->
    NoDup (PyDict.keys nbrs) /\
    forall v, In v (PyDict.keys nbrs) -> In v (nodes G).

(** ** Errors

    A Python exception ([KeyError], [IndexError], [ZeroDivisionError], a
    failed [assert]) aborts the call: fallible code returns [option], and
    [None] stands for "an exception was raised". *)

Definition bind {A B : Type} (m : option A) (k : A -> option B) : option B :=
  match m with Some a => k a | None => None end.

Notation "x <- m ;; k" := (bind m (fun x => k))
  (at level 61, m at next level, right associativity).

Fixpoint mapM {A B : Type} (f : A -> option B) (l : list A) : option (list B) :=
  match l with
  | [] => Some []
  | a :: l' => b <- f a ;; bs <- mapM f l' ;; Some (b :: bs)
  end.

(** [a / b] on numbers: raises on a zero divisor. *)
Definition py_div (a b : Q) : option Q :=
  if Qeq_bool b 0 then None else Some (a / b)%Q.

Definition Qnat (n : nat) : Q := inject_Z (Z.of_nat n).

Definition Qsum (l : list Q) : Q := fold_right Qplus 0%Q l.

Definition mem (x : string) (l : list string) : bool :=
  existsb (String.eqb x) l.

Definition discard (x : string) (l : list string) : list string :=
  filter (fun y => negb (String.eqb y x)) l.

(** ** Cycle enumeration *)

(** Depth-first extension of the path [start .. cur] (kept reversed in
    [cur :: before]): an edge back to [start] closes a cycle, an edge to a
    node of [allowed] extends the path, and a node leaves [allowed] once it
    is on the path, so no node is visited twice. *)
Fixpoint cycles_from (fuel : nat) (G : DiGraph) (start : string)
    (allowed before : list string) (cur : string) : list (list string) :=
  match fuel with
  | O => []
  | S fuel' =>
      flat_map
        (fun w =>
           if String.eqb w start then [rev (cur :: before)]
           else if mem w allowed
                then cycles_from fuel' G start (discard w allowed)
                       (cur :: before) w
                else [])
        (successors G cur)
  end.

(** Cycles whose first node is the head of [order] and whose other nodes
    come later in [order]; then the same for the tail of [order]. *)
Fixpoint cycles_in_order (G : DiGraph) (order : list string)
  : list (list string) :=
  match order with
  | [] => []
  | s :: later =>
      cycles_from (S (List.length later)) G s later [] s
        ++ cycles_in_order G later
  end.

(** Modelled from the spec: [nx.simple_cycles] is networkx code, outside the
    repository.  The spec's cycle enumerator ([find_cycles]) enumerates all
    simple directed cycles, each node visited at most once per cycle, each
    cycle reported once, starting from its insertion-order smallest node; a
    self-loop is a cycle of length 1; parallel edges do not multiply cycles;
    the order of the result is fixed by the graph. *)
Definition simple_cycles (G : DiGraph) : list (list string) :=
  cycles_in_order G (nodes G).

(** ** Betweenness centrality *)

(** Simple paths from [cur] to [t] through nodes of [unvisited]. *)
Fixpoint paths_from (fuel : nat) (G : DiGraph) (t : string)
    (unvisited : list string) (cur : string) : list (list string) :=
  match fuel with
  | O => []
  | S fuel' =>
      if String.eqb cur t then [[t]]
      else
        map (cons cur)
          (flat_map
             (fun w =>
                if mem w unvisited
                then paths_from fuel' G t (discard w unvisited) w
                else [])
             (successors G cur))
  end.

Definition simple_paths (G : DiGraph) (s t : string) : list (list string) :=
  paths_from (S (List.length (nodes G))) G t (discard s (nodes G)) s.

Definition min_length (ps : list (list string)) : nat :=
  match ps with
  | [] => 0
  | p :: ps' => fold_left Nat.min (map (@List.length string) ps') (List.length p)
  end.

(** All shortest paths from [s] to [t], counted in hops. *)
Definition shortest_paths (G : DiGraph) (s t : string) : list (list string) :=
  let ps := simple_paths G s t in
  filter (fun p => Nat.eqb (List.length p) (min_length ps)) ps.

(** [v] is an intermediate node of a path from [s] to [t]. *)
Definition passes_through (v s t : string) (p : list string) : bool :=
  negb (String.eqb v s) && negb (String.eqb v t) && mem v p.

(** The fraction of shortest [s]-[t] paths through [v]; nothing is
    accumulated when [t] is unreachable from [s]. *)
Definition pair_dependency (G : DiGraph) (v s t : string) : option Q :=
  match shortest_paths G s t with
  | [] => Some 0%Q
  | sp =>
      py_div (Qnat (List.length (filter (passes_through v s t) sp)))
             (Qnat (List.length sp))
  end.

(** Ordered pairs of distinct nodes. *)
Definition ordered_pairs (l : list string) : list (string * string) :=
  flat_map (fun s => map (pair s) (discard s l)) l.

Definition raw_betweenness (G : DiGraph) (v : string) : option Q :=
  ds <- mapM (fun '(s, t) => pair_dependency G v s t) (ordered_pairs (nodes G)) ;;
  Some (Qsum ds).

(** [1 / ((n-1)(n-2))] for [n >= 3], else [0]. *)
Definition scale (n : nat) : option Q :=
  if Nat.leb 3 n then py_div 1 (Qnat (n - 1) * Qnat (n - 2))%Q
  else Some 0%Q.

(** Modelled from the spec: [nx.betweenness_centrality] is networkx code,
    outside the repository.  The spec's centrality scorer ([score]): for
    every ordered pair of distinct nodes (s, t) take all shortest paths from
    s to t by hop count, and for each intermediate node v accumulate the
    fraction of them passing through v; normalize by [1 / ((n-1)(n-2))] for
    [n >= 3], else 0; every node is a key of the result.  Scores are exact
    rationals here. *)
Definition betweenness_centrality (G : DiGraph) : option (PyDict.t Q) :=
  k <- scale (List.length (nodes G)) ;;
  mapM (fun v => b <- raw_betweenness G v ;; Some (v, (b * k)%Q)) (nodes G).

(** ** [detect_fraud] *)

Definition detect_fraud (G : DiGraph)
  : option (PyDict.t Q * list (list string)) :=
  let cycles := simple_cycles G in
  fraud_scores <- betweenness_centrality G ;;
  let suspicious_cycles :=
    filter (fun cycle => Nat.leb (List.length cycle) 5) cycles in
  Some (fraud_scores, suspicious_cycles).

(** The filter of the spec's cycle enumerator, [filter_suspicious(cycles,
    max_length)], with the bound as an argument: kept apart from the code,
    to compare [detect_fraud] with. *)
Definition spec_filter_suspicious (max_length : nat)
    (cycles : list (list string)) : list (list string) :=
  filter (fun cycle => Nat.leb (List.length cycle) max_length) cycles.

(** The spec's node classification, [is_high_risk := score > threshold],
    with the threshold as an argument. *)
Definition spec_is_high_risk (threshold score : Q) : bool :=
  negb (Qle_bool score threshold).

(** ** [pyvis.network.Network]

    The part of the pyvis network the program fills and rewrites: the list
    of node option dicts and the list of edge option dicts. *)

Record Node : Type := mkNode {
  n_id : string;
  n_label : string;
  n_title : string;
  n_color : string;
  n_size : Q
}.

Record Edge : Type := mkEdge {
  e_from : string;
  e_to : string;
  e_title : string;
  e_color : string
}.

Record Network : Type := mkNetwork {
  net_nodes : list Node;
  net_edges : list Edge
}.

Definition empty_network : Network := mkNetwork [] [].

Definition node_ids (net : Network) : list string :=
  map n_id (net_nodes net).

(** [net.add_node]: a node whose id is already present is not added again. *)
Definition net_add_node (n : Node) (net : Network) : Network :=
  if mem (n_id n) (node_ids net) then net
  else mkNetwork (net_nodes net ++ [n]) (net_edges net).

(** [net.add_edge] on a directed network: asserts that both end points are
    nodes of the network, then appends the edge. *)
Definition net_add_edge (e : Edge) (net : Network) : option Network :=
  if mem (e_from e) (node_ids net) && mem (e_to e) (node_ids net)
  then Some (mkNetwork (net_nodes net) (net_edges net ++ [e]))
  else None.

(** A [for] loop whose body may raise. *)
Fixpoint foldM {A S : Type} (f : S -> A -> option S) (l : list A) (s : S)
  : option S :=
  match l with
  | [] => Some s
  | a :: l' => s' <- f s a ;; foldM f l' s'
  end.

(** ** [visualize_graph] *)

Section Visualize.

(** Python's number formatting, [f"{score:.2f}"] and [f"{weight}"]: the
    texts only end up in titles. *)
Variable format_score : Q -> string.
Variable format_weight : Q -> string.

(** ["red" if score > 0.1 else "green"] *)
Definition node_color (score : Q) : string :=
  if negb (Qle_bool score (1 # 10)) then "red" else "green".

Definition node_of (node : string) (score : Q) : Node :=
  {| n_id := node;
     n_label := node;
     n_title := "Fraud Score: " ++ format_score score;
     n_color := node_color score;
     n_size := (15 + score * 50)%Q |}.

(** [for node in G.nodes(): score = fraud_scores[node]; ...] *)
Definition add_nodes (G : DiGraph) (fraud_scores : PyDict.t Q)
    (net : Network) : option Network :=
  foldM
    (fun net node =>
       score <- PyDict.get node fraud_scores ;;
       Some (net_add_node (node_of node score) net))
    (nodes G) net.

Definition edge_of (e : string * string * EdgeData) : Edge :=
  let '(source, target, data) := e in
  {| e_from := source;
     e_to := target;
     e_title := "$" ++ format_weight (weight data) ++ " | " ++ label data;
     e_color := if String.eqb (label data) "Fraud" then "orange" else "gray" |}.

(** [for source, target, data in G.edges(data=True): net.add_edge(...)] *)
Definition add_edges (G : DiGraph) (net : Network) : option Network :=
  foldM (fun net e => net_add_edge (edge_of e) net) (edges G) net.

(** The body of the innermost loop, on one edge dict. *)
Definition mark_cycle_edge (source target : string) (edge : Edge) : Edge :=
  if String.eqb (e_from edge) source && String.eqb (e_to edge) target
  then {| e_from := e_from edge;
          e_to := e_to edge;
          e_title := e_title edge ++ " (Cycle)";
          e_color := "purple" |}
  else edge.

(** One round of [for i in range(len(cycle))]. *)
Definition highlight_step (cycle : list string) (net : Network) (i : nat)
  : option Network :=
  source <- nth_error cycle i ;;
  target <- nth_error cycle ((i + 1) mod List.length cycle) ;;
  Some (mkNetwork (net_nodes net)
          (map (mark_cycle_edge source target) (net_edges net))).

Definition highlight_cycle (net : Network) (cycle : list string)
  : option Network :=
  foldM (highlight_step cycle) (seq 0 (List.length cycle)) net.

Definition highlight_cycles (suspicious_cycles : list (list string))
    (net : Network) : option Network :=
  foldM highlight_cycle suspicious_cycles net.

Definition visualize_graph (G : DiGraph) (fraud_scores : PyDict.t Q)
    (suspicious_cycles : list (list string)) : option Network :=
  net <- add_nodes G fraud_scores empty_network ;;
  net <- add_edges G net ;;
  highlight_cycles suspicious_cycles net.

End Visualize.

(** [u] is immediately followed by [v] in [cycle], the last element being
    followed by the first. *)
Definition follows (cycle : list string) (u v : string) : Prop :=
  exists i, i < List.length cycle /\
    nth_error cycle i = Some u /\
    nth_error cycle ((i + 1) mod List.length cycle) = Some v.

(** An edge dict that the highlighting loop has rewritten. *)
Definition is_cycle_edge (edge : Edge) : Prop := e_color edge = "purple".

(** [c2] is [c1] read from another position. *)
Definition rotation (c1 c2 : list string) : Prop :=
  exists a b, c1 = a ++ b /\ c2 = b ++ a.

(** Every element of [cycle] has an edge of [G] to the next one, the last
    to the first. *)
Definition uses_edges_of (G : DiGraph) (cycle : list string) : Prop :=
  forall u v, follows cycle u v -> has_edge G u v = true.

Definition simple_cycle_of (G : DiGraph) (cycle : list string) : Prop :=
  cycle <> [] /\ NoDup cycle /\ uses_edges_of G cycle.

(** ** Sample data *)

Definition loan (l b : string) (a : Q) (lab : string) : Loan :=
  mkLoan l b a lab.

(** Scenario A of the spec: A -> B -> C -> A. *)
Definition triangle : DataFrame :=
  [ loan "A" "B" 1000 "Fraud"; loan "B" "C" 1000 "Fraud";
    loan "C" "A" 1000 "Fraud" ].

(** The same pair twice, with different amounts and labels. *)
Definition repeated_pair : DataFrame :=
  [ loan "A" "B" 100 "Legit"; loan "B" "C" 250 "Legit";
    loan "A" "B" 4000 "Fraud" ].

(** A ring of five, as in scenario D of the spec. *)
Definition ring5 : DataFrame :=
  [ loan "A" "B" 1000 "Fraud"; loan "B" "C" 1000 "Fraud";
    loan "C" "D" 1000 "Fraud"; loan "D" "E" 1000 "Fraud";
    loan "E" "A" 1000 "Fraud" ].

(** A ring of six. *)
Definition ring6 : DataFrame :=
  [ loan "A" "B" 1000 "Fraud"; loan "B" "C" 1000 "Fraud";
    loan "C" "D" 1000 "Fraud"; loan "D" "E" 1000 "Fraud";
    loan "E" "F" 1000 "Fraud"; loan "F" "A" 1000 "Fraud" ].

(** Scenario B of the spec: a single loan, nothing comes back. *)
Definition one_way : DataFrame := [ loan "A" "B" 1000 "Legit" ].

(** A hub: every shortest path between the outer nodes goes through H. *)
Definition star : DataFrame :=
  [ loan "A" "H" 500 "Legit"; loan "H" "B" 500 "Legit";
    loan "H" "C" 700 "Legit"; loan "C" "C" 900 "Legit" ].

(** ** Values of the centrality computation

    What [pair_dependency], [raw_betweenness] and [scale] return when no
    division raises. *)

Definition dependency (G : DiGraph) (v s t : string) : Q :=
  let sp := shortest_paths G s t in
  (Qnat (List.length (filter (passes_through v s t) sp))
   / Qnat (List.length sp))%Q.

Definition betweenness_sum (G : DiGraph) (v : string) : Q :=
  Qsum (map (fun '(s, t) => dependency G v s t) (ordered_pairs (nodes G))).

Definition scale_factor (n : nat) : Q :=
  if Nat.leb 3 n then (1 / (Qnat (n - 1) * Qnat (n - 2)))%Q else 0%Q.

(** ** What the highlighting loop does to the edge dicts *)

(** End points stay, and the dict is a cycle edge afterwards iff it was
    one before or its end points are in the relation [P]. *)
Definition marked (P : string -> string -> Prop) (e e' : Edge) : Prop :=
  e_from e' = e_from e /\ e_to e' = e_to e /\
  (is_cycle_edge e' <-> is_cycle_edge e \/ P (e_from e) (e_to e)).

Definition rewritten (P : string -> string -> Prop) (net net' : Network)
  : Prop :=
  net_nodes net' = net_nodes net /\
  exists g, net_edges net' = map g (net_edges net) /\
            forall e, marked P e (g e).

(** ** Walks

    [walk G cur ext fin]: there are edges of [G] from [cur] to the first
    node of [ext], along [ext], and from its last node to [fin] (from [cur]
    to [fin] when [ext] is empty). *)
Fixpoint walk (G : DiGraph) (cur : string) (ext : list string) (fin : string)
  : Prop :=
  match ext with
  | [] => has_edge G cur fin = true
  | w :: ext' => has_edge G cur w = true /\ walk G w ext' fin
  end.

(** A formatting that prints nothing, and the scores and the network of the
    triangle, for the examples. *)
Definition blank (q : Q) : string := "".

Definition triangle_scores : PyDict.t Q :=
  [("A", 1 # 2); ("B", 1 # 2); ("C", 1 # 2)]%Q.

Definition triangle_net : Network :=
  Eval vm_compute in
    match visualize_graph blank blank (build_graph triangle) triangle_scores
            [["A"; "B"; "C"]] with
    | Some net => net
    | None => empty_network
    end.

(** ** [generate_data]

    The random draws ([random.sample], [np.random.uniform]) are arguments
    here: the pairs and amounts drawn for the normal loans, the sampled
    fraud users, and the amount drawn in each round of the fraud loop.  How
    many of each are drawn is float arithmetic on the sliders' values and is
    left to the caller. *)

(** [str(i)] of a natural number. *)
Definition str_nat (i : nat) : string :=
  NilEmpty.string_of_uint (Nat.to_uint i).

(** [users = [f'User_{i}' for i in range(num_users)]] *)
Definition users (num_users : nat) : list string :=
  map (fun i => ("User_" ++ str_nat i)%string) (seq 0 num_users).

(** The first loop: one row labelled ["Legit"] per draw. *)
Definition legit_loans (draws : list (string * string * Q)) : list Loan :=
  map (fun '(lender, borrower, amount) => mkLoan lender borrower amount "Legit")
      draws.

(** The second loop: [for i in range(len(fraud_users))], from
    [fraud_users[i]] to [fraud_users[(i+1) % len(fraud_users)]]. *)
Definition fraud_loans (fraud_users : list string) (amount : nat -> Q)
  : option (list Loan) :=
  mapM
    (fun i =>
       lender <- nth_error fraud_users i ;;
       borrower <- nth_error fraud_users ((i + 1) mod List.length fraud_users) ;;
       Some (mkLoan lender borrower (amount i) "Fraud"))
    (seq 0 (List.length fraud_users)).

(** The rows of the data frame, normal loans first. *)
Definition generate_data_from (draws : list (string * string * Q))
    (fraud_users : list string) (amount : nat -> Q) : option DataFrame :=
  ring <- fraud_loans fraud_users amount ;;
  Some (legit_loans draws ++ ring).

(** ** [main]: the analysis between the widgets *)

(** [" → ".join(cycle) + " → " + cycle[0]] *)
Definition cycle_line (cycle : list string) : option string :=
  first <- nth_error cycle 0 ;;
  Some (String.concat " → " cycle ++ " → " ++ first)%string.

(** What is written under "Detected Suspicious Cycles". *)
Definition report (suspicious_cycles : list (list string))
  : option (list string) :=
  match suspicious_cycles with
  | [] => Some ["No suspicious cycles detected."]
  | _ => mapM cycle_line suspicious_cycles
  end.

Section Main.

Variable format_score : Q -> string.
Variable format_weight : Q -> string.

(** [G = build_graph(df)], [detect_fraud(G)], the report, then
  [visualize_graph(G, fraud_scores, suspicious_cycles)]. *)
Definition main_analysis (df : DataFrame) : option (list string * Network) :=
let G := build_graph df in
r <- detect_fraud G ;;
let '(fraud_scores, suspicious_cycles) := r in
lines <- report suspicious_cycles ;;
net <- visualize_graph format_score format_weight G fraud_scores
         suspicious_cycles ;;
Some (lines, net).

End Main.

(** ** The highlighting loop, step by step *)

(** The (source, target) pairs the two outer loops go through for one
    cycle, in order. *)
Definition cycle_steps (cycle : list string) : list (string * string) :=
  map (fun i => (nth i cycle "",
                 nth ((i + 1) mod List.length cycle) cycle ""))
      (seq 0 (List.length cycle)).

(** The innermost loop body applied to one edge dict for each pair. *)
Definition mark_all (steps : list (string * string)) (edge : Edge) : Edge :=
  fold_left (fun e '(source, target) => mark_cycle_edge source target e)
            steps edge.

(** How many times the loops come across the pair [(u, v)]. *)
Definition occurrences (cycles : list (list string)) (u v : string) : nat :=
  List.length
    (filter (fun '(source, target) => String.eqb u source && String.eqb v target)
            (flat_map cycle_steps cycles)).

Fixpoint repeat_text (s : string) (n : nat) : string :=
  match n with
  | O => ""
  | S n' => (s ++ repeat_text s n')%string
  end.

Definition pair_of (row : Loan) : string * string :=
  (Lender row, Borrower row).

Definition ends_of (e : string * string * EdgeData) : string * string :=
  let '(u, v, _) := e in (u, v).

(** * Properties *)

(** ** Dictionaries *)

Module PyDictFacts.
Import PyDict.

Section Facts.
Variable V : Type.
Implicit Types (d : PyDict.t V) (k : string) (v : V).

Lemma get_set_eq k v d : get k (set k v d) = Some v.
Proof.
  induction d as [|[k' v'] d IH]; simpl.
  - now rewrite String.eqb_refl.
  - destruct (String.eqb_spec k k') as [E|E]; simpl.
    + now rewrite String.eqb_refl.
    + destruct (String.eqb_spec k k'); [contradiction | exact IH].
Qed.

Lemma get_set_neq k k' v d : k <> k' -> get k' (set k v d) = get k' d.
Proof.
  intros N. induction d as [|[k0 v0] d IH]; simpl.
  - destruct (String.eqb_spec k' k); [congruence | reflexivity].
  - destruct (String.eqb_spec k k0) as [E|E]; simpl.
    + subst k0. destruct (String.eqb_spec k' k); [congruence | reflexivity].
    + destruct (String.eqb_spec k' k0); [reflexivity | exact IH].
Qed.

Lemma contains_In k d : contains k d = true <-> In k (keys d).
Proof.
  unfold contains. induction d as [|[k0 v0] d IH]; simpl.
  - split; [discriminate | tauto].
  - destruct (String.eqb_spec k k0) as [E|E].
    + split; auto.
    + rewrite IH. split; [auto | intros [H|H]; [congruence | exact H]].
Qed.

Lemma contains_false k d : contains k d = false <-> ~ In k (keys d).
Proof.
  rewrite <- contains_In. destruct (contains k d); split; congruence.
Qed.

Lemma get_None k d : get k d = None <-> ~ In k (keys d).
Proof.
  rewrite <- contains_false. unfold contains.
  destruct (get k d); split; congruence.
Qed.

Lemma get_In k v d : get k d = Some v -> In (k, v) d.
Proof.
  induction d as [|[k0 v0] d IH]; simpl; [discriminate|].
  destruct (String.eqb_spec k k0) as [E|E].
  - intros [= <-]. subst. now left.
  - auto.
Qed.

Lemma In_get k v d : NoDup (keys d) -> In (k, v) d -> get k d = Some v.
Proof.
  induction d as [|[k0 v0] d IH]; simpl; [tauto|].
  intros ND [H|H].
  - injection H as -> ->. now rewrite String.eqb_refl.
  - inversion ND as [|? ? Hn ND']; subst.
    destruct (String.eqb_spec k k0) as [E|E].
    + subst. exfalso. apply Hn. change k0 with (fst (k0, v)).
      now apply in_map.
    + auto.
Qed.

Lemma keys_set_present k v d : In k (keys d) -> keys (set k v d) = keys d.
Proof.
  induction d as [|[k0 v0] d IH]; simpl; [tauto|].
  intros H. destruct (String.eqb_spec k k0) as [E|E]; simpl.
  - now subst.
  - f_equal. apply IH. destruct H; [congruence | assumption].
Qed.

Lemma keys_set_absent k v d : ~ In k (keys d) -> keys (set k v d) = keys d ++ [k].
Proof.
  induction d as [|[k0 v0] d IH]; simpl; [reflexivity|].
  intros H. destruct (String.eqb_spec k k0) as [E|E]; simpl.
  - subst. tauto.
  - f_equal. apply IH. tauto.
Qed.

Lemma In_keys_set k k' v d : In k' (keys (set k v d)) <-> k' = k \/ In k' (keys d).
Proof.
  destruct (in_dec string_dec k (keys d)) as [H|H].
  - rewrite keys_set_present by assumption.
    split; [tauto | intros [->|?]; assumption].
  - rewrite keys_set_absent by assumption. rewrite in_app_iff. simpl.
    split; [intros [?|[->|[]]]; auto | intros [->|?]; auto].
Qed.

Lemma NoDup_keys_set k v d : NoDup (keys d) -> NoDup (keys (set k v d)).
Proof.
  intros ND. destruct (in_dec string_dec k (keys d)) as [H|H].
  - now rewrite keys_set_present.
  - rewrite keys_set_absent by assumption.
    apply NoDup_app; [assumption | repeat constructor; simpl; tauto |].
    intros x Hx [<-|[]]. contradiction.
Qed.

Lemma In_set_inv k v k' v' d :
  In (k', v') (set k v d) -> (k', v') = (k, v) \/ In (k', v') d.
Proof.
  induction d as [|[k0 v0] d IH]; simpl.
  - intros [H|[]]. now left.
  - destruct (String.eqb_spec k k0) as [E|E]; simpl.
    + intros [H|H]; auto.
    + intros [H|H]; auto. destruct (IH H); auto.
Qed.

End Facts.
End PyDictFacts.

(** ** Lists *)

Section ListFacts.

Lemma mem_In x l : mem x l = true <-> In x l.
Proof.
  unfold mem. rewrite existsb_exists. split.
  - intros [y [Hy E]]. apply String.eqb_eq in E. now subst.
  - intros H. exists x. split; [exact H | apply String.eqb_refl].
Qed.

Lemma mem_false x l : mem x l = false <-> ~ In x l.
Proof.
  rewrite <- mem_In. destruct (mem x l); split; congruence.
Qed.

Lemma filter_none {A : Type} (f : A -> bool) l :
  (forall x, In x l -> f x = false) -> filter f l = [].
Proof.
  induction l as [|a l IH]; simpl; intros H; [reflexivity|].
  rewrite (H a) by now left. auto.
Qed.

Lemma length_discard v l :
  NoDup l -> In v l -> S (List.length (discard v l)) = List.length l.
Proof.
  induction l as [|a l IH]; simpl; intros ND H; [contradiction|].
  inversion ND as [|? ? Ha ND']; subst.
  destruct (String.eqb_spec a v) as [->|N]; simpl.
  - f_equal. clear IH H ND. induction l as [|b l IHl]; simpl; [reflexivity|].
    simpl in Ha. destruct (String.eqb_spec b v) as [->|Nb]; [tauto|].
    simpl. f_equal. apply IHl; [tauto | now inversion ND'].
  - f_equal. apply IH; [exact ND'|]. destruct H; [contradiction | assumption].
Qed.

Lemma In_discard x v l : In x (discard v l) <-> In x l /\ x <> v.
Proof.
  unfold discard. rewrite filter_In.
  destruct (String.eqb_spec x v); simpl; intuition congruence.
Qed.

Lemma NoDup_discard v l : NoDup l -> NoDup (discard v l).
Proof. apply NoDup_filter. Qed.

Lemma NoDup_flat_map {A B : Type} (f : A -> list B) l :
  NoDup l -> (forall x, In x l -> NoDup (f x)) ->
  (forall x y c, In x l -> In y l -> x <> y ->
                 In c (f x) -> In c (f y) -> False) ->
  NoDup (flat_map f l).
Proof.
  induction l as [|a l IH]; simpl; intros ND Hf Hd; [constructor|].
  inversion ND as [|? ? Ha ND']; subst.
  apply NoDup_app.
  - apply Hf. now left.
  - apply IH; [exact ND' | auto |]. intros x y c Hx Hy. apply Hd; now right.
  - intros c Hc Hc'. apply in_flat_map in Hc'. destruct Hc' as [y [Hy Hcy]].
    apply (Hd a y c); auto. intros ->. contradiction.
Qed.

Lemma hd_error_rev_last {A : Type} (l : list A) (x : A) :
  hd_error (rev l) = Some x -> exists l', l = l' ++ [x].
Proof.
  intros H. destruct (rev l) as [|y r] eqn:E; [discriminate|].
  injection H as ->. exists (rev r).
  rewrite <- (rev_involutive l), E. reflexivity.
Qed.

End ListFacts.

(** ** Graph construction *)

Section GraphFacts.
Import PyDict PyDictFacts.

Lemma adj_entry G u : adj G u = [] \/ In (u, adj G u) G.
Proof.
  unfold adj. destruct (get u G) eqn:E; [right | now left].
  now apply get_In.
Qed.

Lemma adj_of_entry G u nbrs : NoDup (nodes G) -> In (u, nbrs) G -> adj G u = nbrs.
Proof.
  intros ND H. unfold adj. now rewrite (In_get _ _ _ _ ND H).
Qed.

Lemma adj_set G u u' X :
  adj (set u X G) u' = if String.eqb u' u then X else adj G u'.
Proof.
  unfold adj. destruct (String.eqb_spec u' u) as [E|E].
  - subst. now rewrite get_set_eq.
  - rewrite get_set_neq; auto.
Qed.

Lemma adj_add_node_if_absent G n u : adj (add_node_if_absent n G) u = adj G u.
Proof.
  unfold add_node_if_absent. destruct (contains n G) eqn:E; [reflexivity|].
  rewrite adj_set. destruct (String.eqb_spec u n) as [->|N]; [|reflexivity].
  unfold adj, contains in *. now destruct (get n G).
Qed.

Lemma nodes_add_node_if_absent G n x :
  In x (nodes (add_node_if_absent n G)) <-> x = n \/ In x (nodes G).
Proof.
  unfold add_node_if_absent, nodes. destruct (contains n G) eqn:E.
  - apply contains_In in E. split; [tauto | intros [->|?]; assumption].
  - apply In_keys_set.
Qed.

Lemma get_edge_data_add_edge G u v a u' v' :
  get_edge_data (add_edge u v a G) u' v' =
  if String.eqb u' u && String.eqb v' v then Some a
  else get_edge_data G u' v'.
Proof.
  unfold get_edge_data, add_edge. rewrite adj_set.
  rewrite !adj_add_node_if_absent.
  destruct (String.eqb_spec u' u) as [->|N]; simpl; [|reflexivity].
  destruct (String.eqb_spec v' v) as [->|N'].
  - apply get_set_eq.
  - apply get_set_neq. congruence.
Qed.

Lemma wf_adj G u : wf G ->
  NoDup (keys (adj G u)) /\ forall v, In v (keys (adj G u)) -> In v (nodes G).
Proof.
  intros [ND W]. destruct (adj_entry G u) as [E|E].
  - rewrite E. split; [constructor | intros v []].
  - exact (W _ _ E).
Qed.

Lemma wf_empty : wf empty_graph.
Proof. split; [constructor | intros n nbrs []]. Qed.

Lemma wf_add_node_if_absent G n : wf G -> wf (add_node_if_absent n G).
Proof.
  intros [ND W]. unfold add_node_if_absent.
  destruct (contains n G) eqn:E; [now split|].
  split.
  - now apply NoDup_keys_set.
  - intros m nbrs H. apply In_set_inv in H. destruct H as [H|H].
    + injection H as -> ->. split; [constructor | intros v []].
    + destruct (W _ _ H) as [A B]. split; [exact A|].
      intros v Hv. apply In_keys_set. right. now apply B.
Qed.

Lemma wf_set_successor G u v a :
  wf G -> In v (nodes G) -> wf (set u (set v a (adj G u)) G).
Proof.
  intros HW Hv. pose proof (wf_adj G u HW) as [A B]. destruct HW as [ND W].
  split.
  - now apply NoDup_keys_set.
  - intros m nbrs H. apply In_set_inv in H. destruct H as [H|H].
    + injection H as -> ->. split; [now apply NoDup_keys_set|].
      intros x Hx. apply In_keys_set. right.
      apply In_keys_set in Hx. destruct Hx as [->|Hx]; auto.
    + destruct (W _ _ H) as [A' B']. split; [exact A'|].
      intros x Hx. apply In_keys_set. right. now apply B'.
Qed.

Lemma wf_add_edge G u v a : wf G -> wf (add_edge u v a G).
Proof.
  intros HW. unfold add_edge. apply wf_set_successor.
  - now do 2 apply wf_add_node_if_absent.
  - apply nodes_add_node_if_absent. now left.
Qed.

Lemma wf_fold_add_edge df : forall G, wf G ->
  wf (fold_left
        (fun G row => add_edge (Lender row) (Borrower row) (row_attr row) G)
        df G).
Proof.
  induction df as [|row df IH]; simpl; intros G HW; [exact HW|].
  apply IH. now apply wf_add_edge.
Qed.

Lemma wf_build_graph df : wf (build_graph df).
Proof. apply wf_fold_add_edge, wf_empty. Qed.

(** Edges out of one node, seen through the successor dict. *)
Lemma edges_between_row (nbrs : PyDict.t EdgeData) n u v :
  NoDup (keys nbrs) ->
  filter (is_edge_of u v) (map (fun '(nbr, dd) => (n, nbr, dd)) nbrs) =
  if String.eqb n u
  then match get v nbrs with Some dd => [(n, v, dd)] | None => [] end
  else [].
Proof.
  induction nbrs as [|[k dd] nbrs IH]; simpl; intros ND.
  - now destruct (String.eqb n u).
  - inversion ND as [|? ? Hk ND']; subst. rewrite (IH ND').
    destruct (String.eqb_spec n u) as [->|N]; simpl; [|reflexivity].
    destruct (String.eqb_spec k v) as [->|N'].
    + rewrite String.eqb_refl.
      apply get_None in Hk. now rewrite Hk.
    + destruct (String.eqb_spec v k); [congruence | reflexivity].
Qed.

Lemma edges_between_no_node G u v :
  ~ In u (nodes G) -> edges_between G u v = [].
Proof.
  unfold edges_between, edges.
  induction G as [|[n nbrs] G IH]; simpl; intros H; [reflexivity|].
  rewrite filter_app, IH by tauto. rewrite app_nil_r.
  induction nbrs as [|[k dd] nbrs IHn]; simpl; [reflexivity|].
  destruct (String.eqb_spec n u) as [->|N]; [tauto|]. simpl. exact IHn.
Qed.

Lemma edges_between_get_rows G u v :
  NoDup (nodes G) ->
  (forall n nbrs, In (n, nbrs) G -> NoDup (keys nbrs)) ->
  edges_between G u v =
  match get_edge_data G u v with Some dd => [(u, v, dd)] | None => [] end.
Proof.
  unfold get_edge_data, adj.
  induction G as [|[n nbrs] G IH]; simpl; intros ND W; [reflexivity|].
  inversion ND as [|? ? Hn ND']; subst.
  assert (Hrow : NoDup (keys nbrs)) by (apply W with n; now left).
  unfold edges_between, edges in *. simpl. rewrite filter_app.
  rewrite (edges_between_row nbrs n u v Hrow).
  destruct (String.eqb_spec u n) as [->|N].
  - rewrite String.eqb_refl.
    fold (edges G). fold (edges_between G n v).
    rewrite (edges_between_no_node G n v Hn), app_nil_r.
    reflexivity.
  - destruct (String.eqb_spec n u); [congruence|]. simpl.
    apply IH; [exact ND'|]. intros m nb Hm. apply W with m. now right.
Qed.

Lemma edges_between_get G u v : wf G ->
  edges_between G u v =
  match get_edge_data G u v with Some dd => [(u, v, dd)] | None => [] end.
Proof.
  intros [ND W]. apply edges_between_get_rows; [exact ND|].
  intros n nbrs H. exact (proj1 (W n nbrs H)).
Qed.

Lemma build_graph_app df row :
  build_graph (df ++ [row]) =
  add_edge (Lender row) (Borrower row) (row_attr row) (build_graph df).
Proof. unfold build_graph. now rewrite fold_left_app. Qed.

(** The attribute dict of an edge is written by the last row of its pair. *)
Lemma get_edge_data_build_graph df u v :
  get_edge_data (build_graph df) u v =
  option_map row_attr (hd_error (rev (rows_of_pair u v df))).
Proof.
  induction df as [|row df IH] using rev_ind; [reflexivity|].
  rewrite build_graph_app, get_edge_data_add_edge.
  unfold rows_of_pair in *. rewrite filter_app, rev_app_distr. simpl.
  unfold is_pair at 1.
  rewrite (String.eqb_sym u), (String.eqb_sym v).
  destruct (String.eqb (Lender row) u && String.eqb (Borrower row) v);
    [reflexivity | exact IH].
Qed.

End GraphFacts.

Create HintDb graph.
#[global] Hint Resolve wf_empty wf_add_edge wf_build_graph : graph.

(** C10. When two or more rows of the table share the same ordered
    (lender, borrower) pair, the graph of [build_graph] has exactly one edge
    for that pair, and its weight and label are the amount and label of the
    last such row. *)
Theorem build_graph_last_write_wins (df : DataFrame) (u v : string) :
  2 <= List.length (rows_of_pair u v df) ->
  exists earlier row,
    rows_of_pair u v df = earlier ++ [row] /\
    edges_between (build_graph df) u v =
      [(u, v, {| weight := Amount row; label := Label row |})].
Proof.
  intros Hlen.
  rewrite (edges_between_get _ u v (wf_build_graph df)).
  rewrite get_edge_data_build_graph.
  destruct (hd_error (rev (rows_of_pair u v df))) as [row|] eqn:E.
  - destruct (hd_error_rev_last _ _ E) as [earlier Hrows].
    exists earlier, row. split; [exact Hrows | reflexivity].
  - destruct (rows_of_pair u v df) as [|r rows] using rev_ind.
    + simpl in Hlen. lia.
    + rewrite rev_app_distr in E. discriminate.
Qed.

Lemma build_graph_last_write_wins_witness :
  exists earlier row,
    rows_of_pair "A" "B" repeated_pair = earlier ++ [row] /\
    edges_between (build_graph repeated_pair) "A" "B" =
      [("A", "B", {| weight := Amount row; label := Label row |})].
Proof.
  apply (build_graph_last_write_wins repeated_pair "A" "B").
  simpl. lia.
Defined.

(** The table [repeated_pair] has two rows from A to B; the graph has one
    edge from A to B, so rows and edges do not correspond one to one. *)
Lemma build_graph_merges_repeated_pair :
  List.length (edges_between (build_graph repeated_pair) "A" "B")
    <> List.length (rows_of_pair "A" "B" repeated_pair)
  /\ List.length (edges (build_graph repeated_pair))
    <> List.length repeated_pair.
Proof. split; vm_compute; discriminate. Qed.

(** C1, as the code has it.  The graph holds one edge per distinct ordered
    (lender, borrower) pair of the table, however many rows share the pair,
    and the attributes of an edge are those of one row of its pair: nothing
    is summed or merged. *)
Theorem build_graph_one_edge_per_pair (df : DataFrame) (u v : string) :
  List.length (edges_between (build_graph df) u v)
    = Nat.min 1 (List.length (rows_of_pair u v df))
  /\ forall dd, In (u, v, dd) (edges (build_graph df)) ->
       exists row, In row df /\ Lender row = u /\ Borrower row = v /\
                   weight dd = Amount row /\ label dd = Label row.
Proof.
  pose proof (edges_between_get _ u v (wf_build_graph df)) as HE.
  rewrite get_edge_data_build_graph in HE.
  split.
  - rewrite HE.
    destruct (rows_of_pair u v df) as [|r rows] using rev_ind;
      [reflexivity|].
    rewrite rev_app_distr, length_app. simpl.
    now rewrite Nat.add_1_r.
  - intros dd Hin.
    assert (Hb : In (u, v, dd) (edges_between (build_graph df) u v)).
    { apply filter_In. split; [exact Hin|]. simpl.
      now rewrite !String.eqb_refl. }
    rewrite HE in Hb.
    destruct (hd_error (rev (rows_of_pair u v df))) as [row|] eqn:E;
      simpl in Hb; [|contradiction].
    destruct Hb as [Hb|[]]. injection Hb as <-.
    destruct (hd_error_rev_last _ _ E) as [earlier Hrows].
    assert (Hrow : In row (rows_of_pair u v df)).
    { rewrite Hrows. apply in_or_app. right. now left. }
    apply filter_In in Hrow. destruct Hrow as [Hdf Hp].
    unfold is_pair in Hp. apply andb_true_iff in Hp. destruct Hp as [H1 H2].
    apply String.eqb_eq in H1, H2.
    exists row. repeat split; assumption.
Qed.

(** ** Highlighting *)

Section VisualizeFacts.
Variables format_score format_weight : Q -> string.

Lemma node_ids_add_node n net x :
  In x (node_ids (net_add_node n net)) <-> In x (node_ids net) \/ x = n_id n.
Proof.
  unfold net_add_node. destruct (mem (n_id n) (node_ids net)) eqn:E.
  - apply mem_In in E. split; [tauto | intros [?| ->]; assumption].
  - unfold node_ids. simpl. rewrite map_app, in_app_iff. simpl.
    intuition congruence.
Qed.

Lemma net_edges_add_node n net :
  net_edges (net_add_node n net) = net_edges net.
Proof.
  unfold net_add_node. now destruct (mem (n_id n) (node_ids net)).
Qed.

(** The node loop succeeds when every node has a score; it leaves the
    edge list alone and registers every node. *)
Lemma add_nodes_loop fraud_scores l : forall net,
  (forall n, In n l -> In n (PyDict.keys fraud_scores)) ->
  exists net',
    foldM (fun net node =>
             score <- PyDict.get node fraud_scores ;;
             Some (net_add_node (node_of format_score node score) net))
          l net = Some net' /\
    net_edges net' = net_edges net /\
    forall x, In x (node_ids net') <-> In x (node_ids net) \/ In x l.
Proof using format_score.
  induction l as [|n l IH]; simpl; intros net Hk.
  - exists net. repeat split; auto. intros [?|[]]; assumption.
  - destruct (PyDict.get n fraud_scores) as [score|] eqn:E.
    2:{ apply PyDictFacts.get_None in E. exfalso. apply E, Hk. now left. }
    simpl.
    destruct (IH (net_add_node (node_of format_score n score) net))
      as [net' [H1 [H2 H3]]]; [intros; apply Hk; now right|].
    exists net'. split; [exact H1|]. split.
    + now rewrite H2, net_edges_add_node.
    + intros x. rewrite H3, node_ids_add_node. simpl.
      split; [intros [[?| ->]|?]; auto | intros [?|[->|?]]; auto].
Qed.

(** The edge loop succeeds when all end points are registered; it appends
    one edge dict per graph edge, in order. *)
Lemma add_edges_loop es : forall net,
  (forall u v dd, In (u, v, dd) es ->
     In u (node_ids net) /\ In v (node_ids net)) ->
  exists net',
    foldM (fun net e => net_add_edge (edge_of format_weight e) net) es net
      = Some net' /\
    net_edges net' = net_edges net ++ map (edge_of format_weight) es.
Proof.
  induction es as [|[[u v] dd] es IH]; simpl; intros net Hk.
  - exists net. now rewrite app_nil_r.
  - unfold net_add_edge at 1. simpl.
    destruct (Hk u v dd) as [Hu Hv]; [now left|].
    apply mem_In in Hu, Hv. rewrite Hu, Hv. simpl.
    match goal with |- context [foldM _ es ?n] =>
      destruct (IH n) as [net' [H1 H2]] end.
    { intros a b d H. simpl. apply (Hk a b d). now right. }
    exists net'. split; [exact H1|].
    rewrite H2. simpl. now rewrite <- app_assoc.
Qed.

Lemma edges_endpoints G u v dd : wf G ->
  In (u, v, dd) (edges G) -> In u (nodes G) /\ In v (nodes G).
Proof.
  intros [ND W] H. unfold edges in H. apply in_flat_map in H.
  destruct H as [[n nbrs] [Hn Hin]]. apply in_map_iff in Hin.
  destruct Hin as [[k d] [E Hk]]. injection E as -> -> ->.
  split.
  - unfold nodes, PyDict.keys. change u with (fst (u, nbrs)).
    now apply in_map.
  - apply (W u nbrs Hn). unfold PyDict.keys. change v with (fst (v, dd)).
    now apply in_map.
Qed.

Lemma rewritten_refl P net : (forall u v, ~ P u v) -> rewritten P net net.
Proof.
  intros HP. split; [reflexivity|].
  exists (fun e => e). split; [now rewrite map_id|].
  intros e. repeat split; auto. intros [H|H]; [exact H | now apply HP in H].
Qed.

Lemma rewritten_trans P1 P2 P n1 n2 n3 :
  (forall u v, P u v <-> P1 u v \/ P2 u v) ->
  rewritten P1 n1 n2 -> rewritten P2 n2 n3 -> rewritten P n1 n3.
Proof.
  intros HP [N1 [g1 [E1 M1]]] [N2 [g2 [E2 M2]]].
  split; [congruence|].
  exists (fun e => g2 (g1 e)). split.
  - now rewrite E2, E1, map_map.
  - intros e. destruct (M1 e) as [A1 [B1 C1]].
    destruct (M2 (g1 e)) as [A2 [B2 C2]].
    repeat split; try congruence.
    + intros H. apply C2 in H. rewrite A1, B1 in H. rewrite HP.
      destruct H as [H|H]; [apply C1 in H|]; tauto.
    + intros H. apply C2. rewrite A1, B1, C1. rewrite HP in H. tauto.
Qed.

Lemma mark_cycle_edge_marked source target e :
  marked (fun u v => u = source /\ v = target) e
         (mark_cycle_edge source target e).
Proof.
  unfold mark_cycle_edge, marked, is_cycle_edge.
  destruct (String.eqb_spec (e_from e) source) as [E1|E1];
  destruct (String.eqb_spec (e_to e) target) as [E2|E2]; simpl;
    repeat split; auto; tauto.
Qed.

Lemma highlight_step_spec cycle net i :
  i < List.length cycle ->
  exists net',
    highlight_step cycle net i = Some net' /\
    rewritten (fun u v => nth_error cycle i = Some u /\
                 nth_error cycle ((i + 1) mod List.length cycle) = Some v)
              net net'.
Proof.
  intros Hi. unfold highlight_step.
  destruct (nth_error cycle i) as [source|] eqn:E1.
  2:{ apply nth_error_None in E1. lia. }
  destruct (nth_error cycle ((i + 1) mod List.length cycle))
    as [target|] eqn:E2.
  2:{ apply nth_error_None in E2.
      pose proof (Nat.mod_upper_bound (i + 1) (List.length cycle)). lia. }
  simpl. eexists. split; [reflexivity|]. split; [reflexivity|].
  exists (mark_cycle_edge source target). split; [reflexivity|].
  intros e. destruct (mark_cycle_edge_marked source target e) as [A [B C]].
  repeat split; auto.
  - intros H. apply C in H. destruct H as [H|[-> ->]]; auto.
  - intros [H|[H1 H2]]; apply C; auto.
    right. split; congruence.
Qed.

Lemma highlight_range cycle k : forall a net,
  a + k <= List.length cycle ->
  exists net',
    foldM (highlight_step cycle) (seq a k) net = Some net' /\
    rewritten (fun u v => exists i, a <= i < a + k /\
                 nth_error cycle i = Some u /\
                 nth_error cycle ((i + 1) mod List.length cycle) = Some v)
              net net'.
Proof.
  induction k as [|k IH]; simpl; intros a net Hk.
  - exists net. split; [reflexivity|]. apply rewritten_refl.
    intros u v [i [Hi _]]. lia.
  - destruct (highlight_step_spec cycle net a) as [n1 [E1 R1]]; [lia|].
    rewrite E1. simpl.
    destruct (IH (S a) n1) as [n2 [E2 R2]]; [lia|].
    exists n2. split; [exact E2|].
    eapply rewritten_trans; [|exact R1|exact R2].
    intros u v. split.
    + intros [i [Hi [A B]]]. destruct (Nat.eq_dec i a) as [->|N].
      * now left.
      * right. exists i. repeat split; auto; lia.
    + intros [[A B]|[i [Hi [A B]]]].
      * exists a. repeat split; auto; lia.
      * exists i. repeat split; auto; lia.
Qed.

Lemma highlight_cycle_spec net cycle :
  exists net',
    highlight_cycle net cycle = Some net' /\
    rewritten (follows cycle) net net'.
Proof.
  destruct (highlight_range cycle (List.length cycle) 0 net) as [n1 [E R]];
    [lia|].
  exists n1. split; [exact E|].
  eapply rewritten_trans; [| apply (rewritten_refl (fun _ _ => False)); tauto | exact R].
  intros u v. unfold follows. split.
  - intros [i [Hi H]]. right. exists i. split; [lia | exact H].
  - intros [[]|[i [Hi H]]]. exists i. split; [lia | exact H].
Qed.

Lemma highlight_cycles_spec cycles : forall net,
  exists net',
    highlight_cycles cycles net = Some net' /\
    rewritten (fun u v => exists cycle, In cycle cycles /\ follows cycle u v)
              net net'.
Proof.
  unfold highlight_cycles.
  induction cycles as [|c cycles IH]; simpl; intros net.
  - exists net. split; [reflexivity|]. apply rewritten_refl.
    intros u v [c [[] _]].
  - destruct (highlight_cycle_spec net c) as [n1 [E1 R1]]. rewrite E1. simpl.
    destruct (IH n1) as [n2 [E2 R2]].
    exists n2. split; [exact E2|].
    eapply rewritten_trans; [|exact R1|exact R2].
    intros u v. split.
    + intros [c' [[<-|Hc] F]]; [now left | right; eauto].
    + intros [F|[c' [Hc F]]]; [exists c | exists c']; simpl; auto.
Qed.

Lemma edge_of_not_flagged e : ~ is_cycle_edge (edge_of format_weight e).
Proof.
  destruct e as [[u v] dd]. unfold is_cycle_edge. simpl.
  destruct (String.eqb (label dd) "Fraud"); discriminate.
Qed.

End VisualizeFacts.

(** C3. For a graph and scores for its nodes, and any list of suspicious
    cycles, [visualize_graph] returns a network whose edge dicts are the
    edges of the graph, in order; an edge dict is rewritten as a cycle edge
    iff some cycle of the list contains its source immediately followed by
    its target, the last element of a cycle being followed by the first.
    With no suspicious cycle, no edge is flagged. *)
Theorem visualize_graph_cycle_edges (format_score format_weight : Q -> string)
    (G : DiGraph) (fraud_scores : PyDict.t Q)
    (suspicious_cycles : list (list string)) :
  wf G ->
  (forall n, In n (nodes G) -> In n (PyDict.keys fraud_scores)) ->
  exists net,
    visualize_graph format_score format_weight G fraud_scores
      suspicious_cycles = Some net /\
    map (fun e => (e_from e, e_to e)) (net_edges net)
      = map (fun '(u, v, _) => (u, v)) (edges G) /\
    (forall edge, In edge (net_edges net) ->
       (is_cycle_edge edge <->
        exists cycle, In cycle suspicious_cycles /\
                      follows cycle (e_from edge) (e_to edge))) /\
    (suspicious_cycles = [] ->
       forall edge, In edge (net_edges net) -> ~ is_cycle_edge edge).
Proof.
  intros HW Hscores. unfold visualize_graph, add_nodes, add_edges.
  destruct (add_nodes_loop format_score fraud_scores (nodes G) empty_network
              Hscores) as [n1 [E1 [Ed1 Ids1]]].
  rewrite E1. simpl.
  destruct (add_edges_loop format_weight (edges G) n1) as [n2 [E2 Ed2]].
  { intros u v dd H. destruct (edges_endpoints G u v dd HW H).
    split; apply Ids1; now right. }
  rewrite E2. simpl.
  destruct (highlight_cycles_spec suspicious_cycles n2)
    as [n3 [E3 [_ [g [Eg Mg]]]]].
  exists n3. split; [exact E3|].
  rewrite Ed1 in Ed2. simpl in Ed2. rewrite Ed2 in Eg.
  assert (Hiff : forall edge, In edge (net_edges n3) ->
            (is_cycle_edge edge <->
             exists cycle, In cycle suspicious_cycles /\
                           follows cycle (e_from edge) (e_to edge))).
  { intros edge Hin. rewrite Eg, map_map in Hin. apply in_map_iff in Hin.
    destruct Hin as [e [<- _]].
    destruct (Mg (edge_of format_weight e)) as [A [B C]].
    rewrite A, B, C. split; [|tauto].
    intros [H|H]; [|exact H].
    now apply edge_of_not_flagged in H. }
  split; [|split].
  - rewrite Eg, !map_map. apply map_ext. intros [[u v] dd].
    destruct (Mg (edge_of format_weight (u, v, dd))) as [A [B _]].
    now rewrite A, B.
  - exact Hiff.
  - intros -> edge Hin H. apply (Hiff edge Hin) in H.
    destruct H as [c [[] _]].
Qed.

(** ** Centrality *)

Section CentralityFacts.
Local Open Scope Q_scope.

Lemma Qnat_le a b : (a <= b)%nat -> Qnat a <= Qnat b.
Proof. intros H. unfold Qnat, Qle. simpl. lia. Qed.

Lemma Qnat_pos a : (0 < a)%nat -> 0 < Qnat a.
Proof. intros H. unfold Qnat, Qlt. simpl. lia. Qed.

Lemma Qnat_mul a b : Qnat (a * b) == Qnat a * Qnat b.
Proof. unfold Qnat. now rewrite Nat2Z.inj_mul, inject_Z_mult. Qed.

Lemma Qnat_add a b : Qnat (a + b) == Qnat a + Qnat b.
Proof. unfold Qnat. now rewrite Nat2Z.inj_add, inject_Z_plus. Qed.

Lemma py_div_value a b : ~ b == 0 -> py_div a b = Some (a / b).
Proof.
  intros H. unfold py_div. destruct (Qeq_bool b 0) eqn:E; [|reflexivity].
  apply Qeq_bool_iff in E. contradiction.
Qed.

Lemma mapM_value {A B : Type} (f : A -> option B) (g : A -> B) l :
  (forall a, In a l -> f a = Some (g a)) -> mapM f l = Some (map g l).
Proof.
  induction l as [|a l IH]; simpl; intros H; [reflexivity|].
  rewrite (H a) by now left. simpl. rewrite IH by auto. reflexivity.
Qed.

(** No division of the scorer raises. *)
Lemma pair_dependency_value G v s t :
  pair_dependency G v s t = Some (dependency G v s t).
Proof.
  unfold pair_dependency, dependency.
  destruct (shortest_paths G s t) as [|p sp] eqn:E; [reflexivity|].
  apply py_div_value. intros H.
  apply (Qlt_irrefl 0). rewrite <- H at 2. apply Qnat_pos. simpl. lia.
Qed.

Lemma raw_betweenness_value G v :
  raw_betweenness G v = Some (betweenness_sum G v).
Proof.
  unfold raw_betweenness, betweenness_sum.
  rewrite (mapM_value _ (fun '(s, t) => dependency G v s t)); [reflexivity|].
  intros [s t] _. apply pair_dependency_value.
Qed.

Lemma scale_denominator_pos n :
  (3 <= n)%nat -> 0 < Qnat (n - 1) * Qnat (n - 2).
Proof.
  intros H. rewrite <- Qnat_mul. apply Qnat_pos. nia.
Qed.

Lemma scale_value n : scale n = Some (scale_factor n).
Proof.
  unfold scale, scale_factor. destruct (Nat.leb_spec 3 n) as [H|H];
    [|reflexivity].
  apply py_div_value. intros E. apply (Qlt_irrefl 0).
  rewrite <- E at 2. now apply scale_denominator_pos.
Qed.

Lemma betweenness_centrality_value G :
  betweenness_centrality G =
  Some (map (fun v => (v, betweenness_sum G v
                          * scale_factor (List.length (nodes G))))
            (nodes G)).
Proof.
  unfold betweenness_centrality. rewrite scale_value. simpl.
  apply mapM_value. intros v _. now rewrite raw_betweenness_value.
Qed.

(** *** Paths *)

Lemma paths_from_have_successors G t fuel : forall unvisited cur p,
  In p (paths_from fuel G t unvisited cur) ->
  forall x, In x p -> x = t \/ successors G x <> [].
Proof.
  induction fuel as [|fuel IH]; simpl; intros unv cur p Hp x Hx;
    [contradiction|].
  destruct (String.eqb_spec cur t) as [->|N].
  - destruct Hp as [<-|[]]. destruct Hx as [<-|[]]. now left.
  - apply in_map_iff in Hp. destruct Hp as [q [<- Hq]].
    apply in_flat_map in Hq. destruct Hq as [w [Hw Hq]].
    destruct Hx as [<-|Hx].
    + right. intros E. rewrite E in Hw. contradiction.
    + destruct (mem w unv); [|contradiction].
      exact (IH _ _ _ Hq x Hx).
Qed.

Lemma shortest_paths_simple G s t p :
  In p (shortest_paths G s t) -> In p (simple_paths G s t).
Proof. unfold shortest_paths. intros H. now apply filter_In in H. Qed.

Lemma Qnat_zero_div q : Qnat 0 / q == 0.
Proof. unfold Qdiv. apply Qmult_0_l. Qed.

Lemma dependency_zero G v s t :
  (forall p, In p (shortest_paths G s t) -> passes_through v s t p = false) ->
  dependency G v s t == 0.
Proof.
  intros H. unfold dependency. cbv zeta. rewrite (filter_none _ _ H).
  apply Qnat_zero_div.
Qed.

Lemma dependency_endpoint G v s t : v = s \/ v = t -> dependency G v s t == 0.
Proof.
  intros H. apply dependency_zero. intros p _. unfold passes_through.
  destruct H as [->| ->]; rewrite String.eqb_refl; simpl;
    [reflexivity | now rewrite andb_false_r].
Qed.

Lemma dependency_no_successor G v s t :
  out_degree G v = 0%nat -> dependency G v s t == 0.
Proof.
  intros Hout. apply dependency_zero. intros p Hp.
  apply shortest_paths_simple in Hp. unfold passes_through.
  destruct (String.eqb_spec v s) as [|Ns]; [reflexivity|].
  destruct (String.eqb_spec v t) as [|Nt]; [reflexivity|]. simpl.
  apply mem_false. intros Hv.
  destruct (paths_from_have_successors _ _ _ _ _ _ Hp v Hv) as [E|E];
    [contradiction|].
  apply E. unfold successors, PyDict.keys, out_degree in *.
  destruct (adj G v); [reflexivity | discriminate].
Qed.

Lemma dependency_bounds G v s t : 0 <= dependency G v s t <= 1.
Proof.
  unfold dependency. cbv zeta.
  set (sp := shortest_paths G s t).
  pose proof (filter_length_le (passes_through v s t) sp) as Hle.
  destruct (List.length sp) as [|b] eqn:Eb.
  - assert (E : List.length (filter (passes_through v s t) sp) = 0%nat) by lia.
    rewrite E. rewrite Qnat_zero_div. split; [apply Qle_refl | discriminate].
  - assert (Hb : 0 < Qnat (S b)) by (apply Qnat_pos; lia).
    split.
    + apply Qle_shift_div_l; [exact Hb|]. rewrite Qmult_0_l.
      apply (Qnat_le 0). lia.
    + apply Qle_shift_div_r; [exact Hb|]. rewrite Qmult_1_l.
      now apply Qnat_le.
Qed.

(** *** Counting ordered pairs *)

Lemma Qsum_app l1 l2 : Qsum (l1 ++ l2) == Qsum l1 + Qsum l2.
Proof.
  induction l1 as [|a l1 IH]; simpl.
  - now rewrite Qplus_0_l.
  - rewrite IH. apply Qplus_assoc.
Qed.

Lemma Qsum_zero (f : string -> Q) l :
  (forall x, In x l -> f x == 0) -> Qsum (map f l) == 0.
Proof.
  induction l as [|a l IH]; simpl; intros H; [reflexivity|].
  rewrite (H a) by now left. rewrite IH by auto. reflexivity.
Qed.

(** A sum of terms in [0, 1] that vanish at [v] is at most the number of
    terms away from [v]. *)
Lemma Qsum_count (f : string -> Q) v l :
  (forall x, 0 <= f x <= 1) -> f v == 0 ->
  0 <= Qsum (map f l) <= Qnat (List.length (discard v l)).
Proof.
  intros Hf Hv. induction l as [|a l IH]; simpl.
  - split; [apply Qle_refl | apply (Qnat_le 0); lia].
  - destruct (String.eqb_spec a v) as [->|N]; simpl.
    + rewrite Hv, Qplus_0_l. exact IH.
    + change (S (List.length (discard v l)))
        with (1 + List.length (discard v l))%nat.
      rewrite Qnat_add. change (Qnat 1) with 1.
      pose proof (Hf a). lra.
Qed.

(** The sum over the targets [t] of one source [s]. *)
Lemma row_bound G v s l :
  NoDup l -> In v l -> In s l ->
  0 <= Qsum (map (fun t => dependency G v s t) (discard s l))
    <= (if String.eqb s v then 0 else Qnat (List.length l - 2)).
Proof.
  intros ND Hv Hs. destruct (String.eqb_spec s v) as [->|N].
  - rewrite Qsum_zero; [split; apply Qle_refl|].
    intros t _. apply dependency_endpoint. now left.
  - pose proof (Qsum_count (fun t => dependency G v s t) v (discard s l)
                  (fun t => dependency_bounds G v s t)
                  (dependency_endpoint G v s v (or_intror eq_refl)))
      as [H0 H1].
    split; [exact H0|].
    eapply Qle_trans; [exact H1|]. apply Qnat_le.
    pose proof (length_discard s l ND Hs).
    assert (Hin : In v (discard s l))
      by (apply In_discard; split; congruence).
    pose proof (length_discard v (discard s l) (NoDup_discard s l ND) Hin).
    lia.
Qed.

Lemma Qsum_ordered_pairs (f : string -> string -> Q) l l0 :
  Qsum (map (fun '(s, t) => f s t)
          (flat_map (fun s => map (pair s) (discard s l0)) l))
  == Qsum (map (fun s => Qsum (map (f s) (discard s l0))) l).
Proof.
  induction l as [|s l IH]; simpl; [reflexivity|].
  rewrite map_app, Qsum_app, IH, map_map. reflexivity.
Qed.

Lemma Qsum_rows (F : string -> Q) v c l :
  (forall s, In s l -> 0 <= F s <= (if String.eqb s v then 0 else Qnat c)) ->
  0 <= Qsum (map F l) <= Qnat (List.length (discard v l) * c).
Proof.
  induction l as [|a l IH]; simpl; intros H.
  - split; [apply Qle_refl | apply (Qnat_le 0); lia].
  - pose proof (H a (or_introl eq_refl)) as Ha.
    destruct (IH (fun s Hs => H s (or_intror Hs))) as [I0 I1].
    destruct (String.eqb_spec a v) as [->|N]; simpl.
    + lra.
    + rewrite Qnat_add. lra.
Qed.

Lemma betweenness_sum_bounds G v :
  NoDup (nodes G) -> In v (nodes G) ->
  0 <= betweenness_sum G v
    <= Qnat ((List.length (nodes G) - 1) * (List.length (nodes G) - 2)).
Proof.
  intros ND Hv. unfold betweenness_sum, ordered_pairs.
  rewrite (Qsum_ordered_pairs (dependency G v)).
  pose proof (Qsum_rows
    (fun s => Qsum (map (dependency G v s) (discard s (nodes G))))
    v (List.length (nodes G) - 2) (nodes G)
    (fun s Hs => row_bound G v s (nodes G) ND Hv Hs)) as H.
  pose proof (length_discard v (nodes G) ND Hv) as L.
  replace (List.length (nodes G) - 1)%nat
    with (List.length (discard v (nodes G))) by lia.
  exact H.
Qed.

Lemma betweenness_sum_isolated G v :
  out_degree G v = 0%nat -> betweenness_sum G v == 0.
Proof.
  intros H. unfold betweenness_sum, ordered_pairs.
  rewrite (Qsum_ordered_pairs (dependency G v)).
  apply Qsum_zero. intros s _. apply Qsum_zero. intros t _.
  now apply dependency_no_successor.
Qed.

Lemma score_bounds G v :
  NoDup (nodes G) -> In v (nodes G) ->
  0 <= betweenness_sum G v * scale_factor (List.length (nodes G)) <= 1.
Proof.
  intros ND Hv. pose proof (betweenness_sum_bounds G v ND Hv) as [H0 H1].
  unfold scale_factor.
  destruct (Nat.leb_spec 3 (List.length (nodes G))) as [H|H].
  - pose proof (scale_denominator_pos _ H) as HD.
    rewrite Qnat_mul in H1.
    set (D := Qnat (List.length (nodes G) - 1)
              * Qnat (List.length (nodes G) - 2)) in *.
    assert (E : betweenness_sum G v * (1 / D) == betweenness_sum G v / D).
    { field. intros Z. rewrite Z in HD. now apply Qlt_irrefl in HD. }
    rewrite E. split.
    + apply Qle_shift_div_l; [exact HD|]. now rewrite Qmult_0_l.
    + apply Qle_shift_div_r; [exact HD|]. now rewrite Qmult_1_l.
  - rewrite Qmult_0_r. split; [apply Qle_refl | discriminate].
Qed.

End CentralityFacts.

(** ** The fraud signals *)

Lemma get_tabulate (f : string -> Q) (v : string) (l : list string) :
  PyDict.get v (map (fun x => (x, f x)) l)
  = if mem v l then Some (f v) else None.
Proof.
  induction l as [|a l IH]; simpl; [reflexivity|].
  destruct (String.eqb_spec v a) as [->|N]; [reflexivity | exact IH].
Qed.

Lemma keys_tabulate (f : string -> Q) (l : list string) :
  PyDict.keys (map (fun x => (x, f x)) l) = l.
Proof.
  unfold PyDict.keys. rewrite map_map. simpl. apply map_id.
Qed.

Lemma detect_fraud_value (G : DiGraph) :
  detect_fraud G =
  Some (map (fun v => (v, (betweenness_sum G v
                           * scale_factor (List.length (nodes G)))%Q))
            (nodes G),
        filter (fun cycle => Nat.leb (List.length cycle) 5) (simple_cycles G)).
Proof.
  unfold detect_fraud. now rewrite betweenness_centrality_value.
Qed.

(** C6. On every graph the scoring of [detect_fraud] returns a mapping whose
    keys are the nodes of the graph; every score lies in [0, 1]; a node with
    in-degree 0 and out-degree 0 has score 0. *)
Theorem detect_fraud_scores_bounded (G : DiGraph) :
  wf G ->
  exists fraud_scores suspicious_cycles,
    detect_fraud G = Some (fraud_scores, suspicious_cycles) /\
    PyDict.keys fraud_scores = nodes G /\
    (forall v, In v (nodes G) ->
       exists score, PyDict.get v fraud_scores = Some score /\
                     (0 <= score <= 1)%Q) /\
    (forall v score, PyDict.get v fraud_scores = Some score ->
       in_degree G v = 0 -> out_degree G v = 0 -> (score == 0)%Q).
Proof.
  intros [ND _]. rewrite detect_fraud_value. do 2 eexists.
  split; [reflexivity|]. split; [apply keys_tabulate|]. split.
  - intros v Hv. rewrite get_tabulate.
    rewrite (proj2 (mem_In v (nodes G)) Hv).
    eexists. split; [reflexivity|]. now apply score_bounds.
  - intros v score Hget _ Hout. rewrite get_tabulate in Hget.
    destruct (mem v (nodes G)); [|discriminate]. injection Hget as <-.
    rewrite (betweenness_sum_isolated G v Hout). apply Qmult_0_l.
Qed.

(** C7. With [n] nodes, [n >= 3], each score is the raw betweenness of the
    node times [1 / ((n-1)(n-2))]; with fewer than 3 nodes the scale is 0
    without any division and every score is 0.  In both cases the scorer
    returns: no division by zero is raised. *)
Theorem betweenness_normalization (G : DiGraph) :
  let n := List.length (nodes G) in
  exists fraud_scores,
    betweenness_centrality G = Some fraud_scores /\
    (3 <= n -> forall v, In v (nodes G) ->
       exists raw,
         raw_betweenness G v = Some raw /\
         PyDict.get v fraud_scores
           = Some (raw * (1 / (Qnat (n - 1) * Qnat (n - 2))))%Q) /\
    (n < 3 -> scale n = Some 0%Q /\
       forall v, In v (nodes G) ->
         exists score, PyDict.get v fraud_scores = Some score /\
                       (score == 0)%Q).
Proof.
  intros n. rewrite betweenness_centrality_value. eexists.
  split; [reflexivity|]. fold n. split.
  - intros Hn v Hv. exists (betweenness_sum G v).
    split; [apply raw_betweenness_value|].
    rewrite get_tabulate, (proj2 (mem_In v (nodes G)) Hv).
    unfold scale_factor. apply Nat.leb_le in Hn. now rewrite Hn.
  - intros Hn. apply Nat.leb_gt in Hn. split.
    + unfold scale. now rewrite Hn.
    + intros v Hv. rewrite get_tabulate, (proj2 (mem_In v (nodes G)) Hv).
      eexists. split; [reflexivity|].
      unfold scale_factor. rewrite Hn. apply Qmult_0_r.
Qed.

(** On the ring of five with bound 2 (scenario D of the spec) the filter of
    [detect_fraud] keeps the cycle of length 5. *)
Lemma detect_fraud_keeps_ring5_at_bound_2 :
  exists fraud_scores suspicious_cycles,
    detect_fraud (build_graph ring5) = Some (fraud_scores, suspicious_cycles) /\
    suspicious_cycles
      <> spec_filter_suspicious 2 (simple_cycles (build_graph ring5)).
Proof.
  rewrite detect_fraud_value. do 2 eexists. split; [reflexivity|].
  vm_compute. discriminate.
Qed.

(** C5, as the code has it.  The bound is the constant 5: on every graph
    the suspicious cycles of [detect_fraud] are exactly the cycles of the
    enumeration whose length is at most 5, in the order of the enumeration,
    and filtering them again with the same bound returns the same
    sequence. *)
Theorem detect_fraud_filter_exact (G : DiGraph) :
  exists fraud_scores suspicious_cycles,
    detect_fraud G = Some (fraud_scores, suspicious_cycles) /\
    suspicious_cycles = spec_filter_suspicious 5 (simple_cycles G) /\
    (forall cycle, In cycle suspicious_cycles <->
       In cycle (simple_cycles G) /\ List.length cycle <= 5) /\
    filter (fun cycle => Nat.leb (List.length cycle) 5) suspicious_cycles
      = suspicious_cycles.
Proof.
  rewrite detect_fraud_value. do 2 eexists. split; [reflexivity|].
  split; [reflexivity|]. split.
  - intros cycle. rewrite filter_In, Nat.leb_le. reflexivity.
  - induction (simple_cycles G) as [|c l IH]; simpl; [reflexivity|].
    destruct (Nat.leb (List.length c) 5) eqn:E; simpl; [|exact IH].
    now rewrite E, IH.
Qed.

(** ** Node classification *)

Section NodeFacts.
Variables format_score format_weight : Q -> string.

Lemma net_add_node_inv n net x :
  In x (net_nodes (net_add_node n net)) -> In x (net_nodes net) \/ x = n.
Proof.
  unfold net_add_node. destruct (mem (n_id n) (node_ids net)); simpl.
  - now left.
  - rewrite in_app_iff. simpl. intros [H|[H|[]]]; auto.
Qed.

Lemma add_nodes_scored fraud_scores l : forall net net',
  foldM (fun net node =>
           score <- PyDict.get node fraud_scores ;;
           Some (net_add_node (node_of format_score node score) net))
        l net = Some net' ->
  forall n, In n (net_nodes net') ->
    In n (net_nodes net) \/
    exists score, PyDict.get (n_id n) fraud_scores = Some score /\
                  n = node_of format_score (n_id n) score.
Proof using format_score.
  induction l as [|a l IH]; simpl; intros net net' H n Hn.
  - injection H as <-. now left.
  - destruct (PyDict.get a fraud_scores) as [score|] eqn:E;
      [|discriminate]. simpl in H.
    destruct (IH _ _ H n Hn) as [Hin|Hsc]; [|now right].
    apply net_add_node_inv in Hin. destruct Hin as [Hin| ->];
      [now left|].
    right. exists score. simpl. split; [exact E | reflexivity].
Qed.

Lemma add_edges_nodes es : forall net net',
  foldM (fun net e => net_add_edge (edge_of format_weight e) net) es net
    = Some net' ->
  net_nodes net' = net_nodes net.
Proof using format_weight.
  induction es as [|e es IH]; simpl; intros net net' H.
  - now injection H as <-.
  - unfold net_add_edge at 1 in H.
    destruct (mem (e_from (edge_of format_weight e)) (node_ids net)
              && mem (e_to (edge_of format_weight e)) (node_ids net));
      [|discriminate].
    simpl in H. now rewrite (IH _ _ H).
Qed.

Lemma highlight_cycles_nodes cycles net net' :
  highlight_cycles cycles net = Some net' ->
  net_nodes net' = net_nodes net.
Proof.
  intros H. destruct (highlight_cycles_spec cycles net) as [n [E [R _]]].
  congruence.
Qed.

Lemma node_color_red score :
  node_color score = "red" <-> (1 # 10 < score)%Q.
Proof.
  unfold node_color. destruct (Qle_bool score (1 # 10)) eqn:E; simpl.
  - apply Qle_bool_iff in E. split; [discriminate|].
    intros H. exfalso. exact (Qlt_not_le _ _ H E).
  - split; [intros _ | reflexivity]. apply Qnot_le_lt. intros H.
    apply Qle_bool_iff in H. congruence.
Qed.

End NodeFacts.

(** The ring of six is a cycle within a maximum length of 6, and a score of
    1/2 is no high risk at a threshold of 6/10; [detect_fraud] and the node
    colouring have no way to be given those values. *)
Lemma parameters_not_configurable :
  (exists fraud_scores,
     detect_fraud (build_graph ring6) = Some (fraud_scores, []) /\
     spec_filter_suspicious 6 (simple_cycles (build_graph ring6)) <> []) /\
  (spec_is_high_risk (6 # 10) (1 # 2) = false /\ node_color (1 # 2) = "red").
Proof.
  split.
  - eexists. split; [vm_compute; reflexivity | vm_compute; discriminate].
  - split; reflexivity.
Qed.

(** C2, as the code has it.  [detect_fraud] takes the graph alone and keeps
    the cycles of length at most 5; [visualize_graph] takes no threshold and
    colours a node red exactly when its score is above 1/10.  These are the
    values the spec gives as defaults. *)
Theorem parameters_fixed_at_defaults (format_score format_weight : Q -> string)
    (G : DiGraph) (fraud_scores : PyDict.t Q)
    (suspicious_cycles : list (list string)) (net : Network) :
  visualize_graph format_score format_weight G fraud_scores suspicious_cycles
    = Some net ->
  (exists scores,
     detect_fraud G
       = Some (scores, spec_filter_suspicious 5 (simple_cycles G))) /\
  (forall n, In n (net_nodes net) ->
     exists score,
       PyDict.get (n_id n) fraud_scores = Some score /\
       n_color n
         = (if spec_is_high_risk (1 # 10) score then "red" else "green") /\
       (n_color n = "red" <-> (1 # 10 < score)%Q)).
Proof.
  intros H. split.
  - rewrite detect_fraud_value. eexists. reflexivity.
  - unfold visualize_graph, add_nodes, add_edges in H.
    match type of H with bind ?m _ = _ => destruct m as [n1|] eqn:E1 end;
      [|discriminate].
    simpl in H.
    match type of H with bind ?m _ = _ => destruct m as [n2|] eqn:E2 end;
      [|discriminate].
    simpl in H. intros n Hn.
    rewrite (highlight_cycles_nodes _ _ _ H) in Hn.
    rewrite (add_edges_nodes _ _ _ _ E2) in Hn.
    destruct (add_nodes_scored _ _ _ _ _ E1 n Hn) as [[]|[score [Hs Hnode]]].
    exists score. split; [exact Hs|].
    rewrite Hnode. simpl. split; [reflexivity | apply node_color_red].
Qed.

(** ** Cycles *)

Section CycleFacts.

Lemma has_edge_successor G u v :
  has_edge G u v = true <-> In v (successors G u).
Proof. unfold has_edge, successors. apply PyDictFacts.contains_In. Qed.

(** *** Cycles as closed walks *)

Lemma follows_cons x r u v :
  follows (x :: r) u v <->
  exists i, nth_error (x :: r) i = Some u /\ nth_error (r ++ [x]) i = Some v.
Proof.
  unfold follows. simpl List.length.
  assert (Hnext : forall i, i < S (List.length r) ->
            nth_error (x :: r) ((i + 1) mod S (List.length r))
            = nth_error (r ++ [x]) i).
  { intros i Hi. destruct (Nat.eq_dec (i + 1) (S (List.length r))) as [E|E].
    - rewrite E, Nat.Div0.mod_same. simpl.
      assert (i = List.length r) as -> by lia.
      rewrite nth_error_app2, Nat.sub_diag by lia. reflexivity.
    - rewrite Nat.mod_small by lia. rewrite Nat.add_1_r. simpl.
      rewrite nth_error_app1 by lia. reflexivity. }
  split.
  - intros [i [Hi [A B]]]. exists i. rewrite <- Hnext by exact Hi. auto.
  - intros [i [A B]].
    assert (Hi : i < S (List.length r)).
    { apply (proj1 (nth_error_Some (x :: r) i)). congruence. }
    exists i. rewrite Hnext by exact Hi. auto.
Qed.

Lemma walk_nth G r : forall x z,
  walk G x r z <->
  forall i u v, nth_error (x :: r) i = Some u ->
                nth_error (r ++ [z]) i = Some v -> has_edge G u v = true.
Proof.
  induction r as [|w r IH]; intros x z; simpl.
  - split.
    + intros H [|i] u v A B; simpl in *.
      * congruence.
      * destruct i; discriminate.
    + intros H. apply (H 0); reflexivity.
  - rewrite IH. split.
    + intros [H0 H] [|i] u v A B.
      * simpl in *. congruence.
      * exact (H i u v A B).
    + intros H. split.
      * apply (H 0); reflexivity.
      * intros i u v A B. exact (H (S i) u v A B).
Qed.

Lemma uses_edges_walk G x r : uses_edges_of G (x :: r) <-> walk G x r x.
Proof.
  unfold uses_edges_of. rewrite walk_nth. split.
  - intros H i u v A B. apply H. apply follows_cons. eauto.
  - intros H u v F. apply follows_cons in F. destruct F as [i [A B]]. eauto.
Qed.

Lemma walk_app G r1 : forall x y r2 z,
  walk G x (r1 ++ y :: r2) z <-> walk G x r1 y /\ walk G y r2 z.
Proof.
  induction r1 as [|w r1 IH]; intros x y r2 z; simpl.
  - reflexivity.
  - rewrite IH. tauto.
Qed.

Lemma walk_source_is_node G x r z : walk G x r z -> In x (nodes G).
Proof.
  assert (H : forall v, has_edge G x v = true -> In x (nodes G)).
  { unfold has_edge, adj. intros v Hv.
    destruct (PyDict.get x G) as [nbrs|] eqn:E; [|discriminate].
    apply PyDictFacts.get_In in E. unfold nodes, PyDict.keys.
    change x with (fst (x, nbrs)). now apply in_map. }
  destruct r; simpl; [apply H | intros [H0 _]; exact (H _ H0)].
Qed.

(** *** One depth-first search *)

Lemma cycles_from_sound G start fuel : forall allowed before cur c,
  In c (cycles_from fuel G start allowed before cur) ->
  exists ext,
    c = rev before ++ cur :: ext /\ walk G cur ext start /\
    NoDup ext /\ forall x, In x ext -> In x allowed /\ x <> start.
Proof.
  induction fuel as [|fuel IH]; simpl; intros allowed before cur c Hc;
    [contradiction|].
  apply in_flat_map in Hc. destruct Hc as [w [Hw Hc]].
  apply has_edge_successor in Hw.
  destruct (String.eqb_spec w start) as [->|N].
  - destruct Hc as [<-|[]]. exists []. simpl.
    repeat split; [exact Hw | constructor | contradiction | contradiction].
  - destruct (mem w allowed) eqn:M; [|contradiction].
    apply mem_In in M.
    destruct (IH _ _ _ _ Hc) as [ext [E [W [ND Hin]]]].
    exists (w :: ext). simpl in E. rewrite <- app_assoc in E. simpl in E.
    split; [exact E|]. split; [simpl; auto|]. split.
    + constructor; [|exact ND]. intros Hx. apply Hin in Hx.
      destruct Hx as [Hx _]. apply In_discard in Hx. tauto.
    + intros x [<-|Hx]; [auto|]. apply Hin in Hx.
      destruct Hx as [Hx Hs]. apply In_discard in Hx. tauto.
Qed.

Lemma cycles_from_complete G start ext : forall fuel allowed before cur,
  walk G cur ext start -> NoDup ext ->
  (forall x, In x ext -> In x allowed /\ x <> start) ->
  List.length ext < fuel ->
  In (rev before ++ cur :: ext) (cycles_from fuel G start allowed before cur).
Proof.
  induction ext as [|w ext IH]; intros fuel allowed before cur W ND Hin Hf;
    (destruct fuel as [|fuel]; [simpl in Hf; lia|]); simpl in *.
  - apply in_flat_map. exists start. split.
    + now apply has_edge_successor.
    + rewrite String.eqb_refl. now left.
  - destruct W as [W0 W]. apply in_flat_map. exists w. split.
    + now apply has_edge_successor.
    + destruct (Hin w (or_introl eq_refl)) as [Ha Hs].
      destruct (String.eqb_spec w start) as [|_]; [contradiction|].
      rewrite (proj2 (mem_In w allowed) Ha).
      inversion ND as [|? ? Hw ND']; subst.
      replace (rev before ++ cur :: w :: ext)
        with (rev (cur :: before) ++ w :: ext)
        by (simpl; now rewrite <- app_assoc).
      apply IH; [exact W | exact ND' | | lia].
      intros x Hx. destruct (Hin x (or_intror Hx)) as [Hxa Hxs].
      split; [|exact Hxs]. apply In_discard. split; [exact Hxa|].
      intros ->. contradiction.
Qed.

Lemma cycles_from_NoDup G start fuel : wf G -> forall allowed before cur,
  NoDup (cycles_from fuel G start allowed before cur).
Proof.
  intros HW. induction fuel as [|fuel IH]; simpl; intros allowed before cur;
    [constructor|].
  set (f := fun w => if String.eqb w start then [rev before ++ [cur]]
                     else if mem w allowed
                          then cycles_from fuel G start (discard w allowed)
                                 (cur :: before) w
                          else []).
  assert (shape : forall w c, In c (f w) ->
            (w = start /\ c = rev before ++ [cur]) \/
            (w <> start /\ exists ext, c = (rev before ++ [cur]) ++ w :: ext)).
  { intros w c Hc. unfold f in Hc.
    destruct (String.eqb_spec w start) as [->|N].
    - destruct Hc as [<-|[]]. now left.
    - destruct (mem w allowed); [|contradiction].
      apply cycles_from_sound in Hc. destruct Hc as [ext [E _]].
      right. split; [exact N|]. exists ext. exact E. }
  apply (NoDup_flat_map f).
  - apply (wf_adj G cur HW).
  - intros w _. unfold f. destruct (String.eqb w start).
    + repeat constructor. simpl. tauto.
    + destruct (mem w allowed); [apply IH | constructor].
  - intros x y c _ _ Nxy Hx Hy.
    destruct (shape _ _ Hx) as [[Ex Cx]|[Nx [ex Cx]]];
    destruct (shape _ _ Hy) as [[Ey Cy]|[Ny [ey Cy]]].
    + congruence.
    + rewrite Cx in Cy. rewrite <- (app_nil_r (rev before ++ [cur])) in Cy at 1.
      apply app_inv_head in Cy. discriminate.
    + rewrite Cy in Cx. rewrite <- (app_nil_r (rev before ++ [cur])) in Cx at 1.
      apply app_inv_head in Cx. discriminate.
    + rewrite Cx in Cy. apply app_inv_head in Cy. congruence.
Qed.

(** *** Rotations *)

Lemma rotation_In c1 c2 x : rotation c1 c2 -> In x c1 -> In x c2.
Proof.
  intros [a [b [-> ->]]]. rewrite !in_app_iff. tauto.
Qed.

Lemma rotation_same_head s e1 e2 :
  NoDup (s :: e1) -> rotation (s :: e1) (s :: e2) -> e1 = e2.
Proof.
  intros ND [a [b [E1 E2]]].
  destruct a as [|x a].
  - simpl in E1. rewrite app_nil_r in E2. congruence.
  - destruct b as [|y b].
    + rewrite app_nil_r in E1. simpl in E2. congruence.
    + simpl in E1, E2. injection E1 as <- E1. injection E2 as <- E2.
      exfalso. inversion ND as [|? ? Hs _]; subst.
      apply Hs. apply in_or_app. right. now left.
Qed.

(** *** The whole enumeration *)

Lemma cycles_in_order_cons G s later :
  cycles_in_order G (s :: later) =
  cycles_from (S (List.length later)) G s later [] s
    ++ cycles_in_order G later.
Proof. reflexivity. Qed.

Lemma cycles_in_order_shape G s later c :
  In c (cycles_in_order G (s :: later)) ->
  (exists ext, c = s :: ext /\ walk G s ext s /\ NoDup ext /\
               forall x, In x ext -> In x later /\ x <> s)
  \/ In c (cycles_in_order G later).
Proof.
  rewrite cycles_in_order_cons. intros H. apply in_app_or in H.
  destruct H as [H|H]; [left | now right].
  apply cycles_from_sound in H. exact H.
Qed.

Lemma cycles_in_order_elements G order : forall c,
  In c (cycles_in_order G order) -> forall x, In x c -> In x order.
Proof.
  induction order as [|s later IH]; intros c Hc x Hx; [contradiction|].
  destruct (cycles_in_order_shape _ _ _ _ Hc) as [[ext [-> [_ [_ Hin]]]]|H].
  - destruct Hx as [<-|Hx]; [now left | right; now apply Hin].
  - right. exact (IH c H x Hx).
Qed.

Lemma cycles_in_order_sound G order : forall c,
  In c (cycles_in_order G order) -> simple_cycle_of G c.
Proof.
  induction order as [|s later IH]; intros c Hc; [contradiction|].
  destruct (cycles_in_order_shape _ _ _ _ Hc) as [[ext [-> [W [ND Hin]]]]|H];
    [|now apply IH].
  split; [discriminate|]. split.
  - constructor; [|exact ND]. intros Hs. now apply Hin in Hs.
  - now apply uses_edges_walk.
Qed.

Lemma cycles_in_order_canonical G order : NoDup order -> forall c1 c2,
  In c1 (cycles_in_order G order) -> In c2 (cycles_in_order G order) ->
  rotation c1 c2 -> c1 = c2.
Proof.
  induction order as [|s later IH]; intros ND c1 c2 H1 H2 R; [contradiction|].
  inversion ND as [|? ? Hs ND']; subst.
  assert (Rsym : rotation c2 c1).
  { destruct R as [a [b [-> ->]]]. now exists b, a. }
  destruct (cycles_in_order_shape _ _ _ _ H1) as [[e1 [E1 [_ [N1 I1]]]]|L1];
  destruct (cycles_in_order_shape _ _ _ _ H2) as [[e2 [E2 [_ [N2 I2]]]]|L2].
  - subst. f_equal. apply (rotation_same_head s e1 e2); [|exact R].
    constructor; [|exact N1]. intros Hx. now apply I1 in Hx.
  - exfalso. apply Hs. apply (cycles_in_order_elements G later c2 L2).
    apply (rotation_In c1 c2 s R). subst. now left.
  - exfalso. apply Hs. apply (cycles_in_order_elements G later c1 L1).
    apply (rotation_In c2 c1 s Rsym). subst. now left.
  - now apply IH.
Qed.

Lemma cycles_in_order_NoDup G order :
  wf G -> NoDup order -> NoDup (cycles_in_order G order).
Proof.
  intros HW. induction order as [|s later IH]; intros ND;
    [constructor|].
  rewrite cycles_in_order_cons.
  inversion ND as [|? ? Hs ND']; subst.
  apply NoDup_app.
  - now apply cycles_from_NoDup.
  - now apply IH.
  - intros c Hc Hc'. apply cycles_from_sound in Hc.
    destruct Hc as [ext [-> _]]. simpl in Hc'.
    apply Hs. apply (cycles_in_order_elements G later _ Hc'). now left.
Qed.

Lemma walk_nodes G r : forall x z,
  walk G x r z -> forall y, In y (x :: r) -> In y (nodes G).
Proof.
  induction r as [|w r IH]; intros x z W y Hy.
  - destruct Hy as [<-|[]]. exact (walk_source_is_node G x [] z W).
  - destruct Hy as [<-|Hy].
    + exact (walk_source_is_node G x (w :: r) z W).
    + destruct W as [_ W]. exact (IH w z W y Hy).
Qed.

Lemma simple_cycle_nodes G c :
  simple_cycle_of G c -> forall x, In x c -> In x (nodes G).
Proof.
  intros [Hne [_ HU]] x Hx. destruct c as [|x0 r]; [contradiction|].
  apply uses_edges_walk in HU. exact (walk_nodes G r x0 x0 HU x Hx).
Qed.

(** Reading a cycle from another position keeps it a closed walk. *)
Lemma walk_rotate G a s b :
  uses_edges_of G (a ++ s :: b) -> walk G s (b ++ a) s.
Proof.
  destruct a as [|x a]; simpl; intros H.
  - rewrite app_nil_r. now apply uses_edges_walk.
  - apply uses_edges_walk in H. apply walk_app in H.
    apply walk_app. tauto.
Qed.

Lemma cycles_in_order_complete G order : forall c,
  simple_cycle_of G c -> (forall x, In x c -> In x order) ->
  exists c', rotation c c' /\ In c' (cycles_in_order G order).
Proof.
  induction order as [|s later IH]; intros c HC Hin.
  - destruct HC as [Hne _]. destruct c as [|x r]; [congruence|].
    destruct (Hin x (or_introl eq_refl)).
  - destruct (in_dec string_dec s c) as [Hs|Hs].
    + apply in_split in Hs. destruct Hs as [a [b ->]].
      destruct HC as [_ [ND HU]].
      pose proof (NoDup_remove_1 _ _ _ ND) as ND1.
      pose proof (NoDup_remove_2 _ _ _ ND) as ND2.
      assert (NDba : NoDup (b ++ a)).
      { exact (Permutation_NoDup (Permutation_app_comm a b) ND1). }
      exists (s :: b ++ a). split.
      * exists a, (s :: b). split; reflexivity.
      * rewrite cycles_in_order_cons. apply in_or_app. left.
        apply (cycles_from_complete G s (b ++ a) (S (List.length later))
                 later [] s).
        -- now apply walk_rotate.
        -- exact NDba.
        -- intros x Hx.
           assert (Hx' : In x (a ++ b))
             by (apply in_app_iff; apply in_app_iff in Hx; tauto).
           assert (Nx : x <> s) by (intros ->; contradiction).
           split; [|exact Nx].
           destruct (Hin x) as [E|E]; [|congruence|exact E].
           apply in_app_iff. apply in_app_iff in Hx'.
           destruct Hx'; [now left | right; now right].
        -- apply Nat.lt_succ_r. apply NoDup_incl_length; [exact NDba|].
           intros x Hx.
           assert (Hx' : In x (a ++ b))
             by (apply in_app_iff; apply in_app_iff in Hx; tauto).
           assert (Nx : x <> s) by (intros ->; contradiction).
           destruct (Hin x) as [E|E]; [|congruence|exact E].
           apply in_app_iff. apply in_app_iff in Hx'.
           destruct Hx'; [now left | right; now right].
    + destruct (IH c HC) as [c' [R Hc']].
      * intros x Hx. destruct (Hin x Hx) as [<-|E]; [contradiction|exact E].
      * exists c'. split; [exact R|]. rewrite cycles_in_order_cons.
        apply in_or_app. now right.
Qed.

End CycleFacts.

Lemma simple_cycles_complete (G : DiGraph) (cycle : list string) :
  simple_cycle_of G cycle ->
  exists c', rotation cycle c' /\ In c' (simple_cycles G).
Proof.
  intros H. apply cycles_in_order_complete; [exact H|].
  now apply simple_cycle_nodes.
Qed.

(** An empty enumeration shows that the graph has no cycle. *)
Lemma acyclic_by_enumeration (G : DiGraph) :
  simple_cycles G = [] -> forall cycle, ~ simple_cycle_of G cycle.
Proof.
  intros E cycle H. destruct (simple_cycles_complete G cycle H) as [c' [_ Hc]].
  rewrite E in Hc. contradiction.
Qed.

(** C4. On every graph the enumeration reports no two cycles that are
    rotations of one another: the list has no repeated entry, and two
    entries that are rotations of each other are the same entry; every
    simple cycle of the graph is reported, up to rotation.  Every reported
    cycle is non-empty, visits no node twice, and each of its nodes has an
    edge of the graph to the next one, the last to the first. *)
Theorem simple_cycles_canonical (G : DiGraph) :
  wf G ->
  NoDup (simple_cycles G) /\
  (forall c1 c2, In c1 (simple_cycles G) -> In c2 (simple_cycles G) ->
     rotation c1 c2 -> c1 = c2) /\
  (forall cycle, simple_cycle_of G cycle ->
     exists c', rotation cycle c' /\ In c' (simple_cycles G)) /\
  (forall cycle, In cycle (simple_cycles G) ->
     cycle <> [] /\ NoDup cycle /\
     forall u v, follows cycle u v -> has_edge G u v = true).
Proof.
  intros HW. pose proof (proj1 HW) as ND. unfold simple_cycles.
  split; [now apply cycles_in_order_NoDup|].
  split; [now apply cycles_in_order_canonical|].
  split; [apply simple_cycles_complete|].
  intros cycle Hc. exact (cycles_in_order_sound G (nodes G) cycle Hc).
Qed.

Lemma simple_cycles_canonical_witness :
  NoDup (simple_cycles (build_graph triangle)) /\
  (forall c1 c2, In c1 (simple_cycles (build_graph triangle)) ->
     In c2 (simple_cycles (build_graph triangle)) ->
     rotation c1 c2 -> c1 = c2) /\
  (forall cycle, simple_cycle_of (build_graph triangle) cycle ->
     exists c', rotation cycle c' /\ In c' (simple_cycles (build_graph triangle))) /\
  (forall cycle, In cycle (simple_cycles (build_graph triangle)) ->
     cycle <> [] /\ NoDup cycle /\
     forall u v, follows cycle u v -> has_edge (build_graph triangle) u v = true).
Proof.
  apply (simple_cycles_canonical (build_graph triangle)).
  auto with graph.
Defined.

Example simple_cycles_triangle :
  simple_cycles (build_graph triangle) = [["A"; "B"; "C"]].
Proof. reflexivity. Qed.

Example simple_cycles_empty_graph : simple_cycles empty_graph = [].
Proof. reflexivity. Qed.

Example simple_cycles_single_node : simple_cycles [("A", [])] = [].
Proof. reflexivity. Qed.

Example simple_cycles_one_way : simple_cycles (build_graph one_way) = [].
Proof. reflexivity. Qed.

Lemma follows_self_loop (u : string) : follows [u] u u.
Proof. exists 0. simpl. repeat split; auto. Qed.

(** C8. A self-loop [u -> u] is reported as the cycle [[u]] of length 1, and
    [detect_fraud] returns with it among the suspicious cycles.  On a graph
    with no cycle the enumeration is empty and [detect_fraud] returns the
    empty list.  In no case is an error raised: [detect_fraud] returns on
    every graph. *)
Theorem simple_cycles_self_loop_and_acyclic (G : DiGraph) :
  (exists fraud_scores suspicious_cycles,
     detect_fraud G = Some (fraud_scores, suspicious_cycles)) /\
  (forall u, has_edge G u u = true ->
     In [u] (simple_cycles G) /\
     exists fraud_scores suspicious_cycles,
       detect_fraud G = Some (fraud_scores, suspicious_cycles) /\
       In [u] suspicious_cycles) /\
  ((forall cycle, ~ simple_cycle_of G cycle) ->
     simple_cycles G = [] /\
     exists fraud_scores, detect_fraud G = Some (fraud_scores, [])).
Proof.
  split; [rewrite detect_fraud_value; eauto|]. split.
  - intros u Hu.
    assert (Hin : In [u] (simple_cycles G)).
    { destruct (simple_cycles_complete G [u]) as [c' [[a [b [E ->]]] Hc]].
      - split; [discriminate|]. split; [repeat constructor; simpl; tauto|].
        apply uses_edges_walk. exact Hu.
      - destruct a as [|x a].
        + simpl in E. subst b. exact Hc.
        + destruct a; [|destruct a; discriminate].
          destruct b; [|discriminate]. simpl in E. injection E as <-.
          exact Hc. }
    split; [exact Hin|]. rewrite detect_fraud_value. do 2 eexists.
    split; [reflexivity|]. apply filter_In. split; [exact Hin | reflexivity].
  - intros Hno.
    assert (E : simple_cycles G = []).
    { destruct (simple_cycles G) as [|c l] eqn:E; [reflexivity|].
      exfalso. apply (Hno c). unfold simple_cycles in E.
      apply (cycles_in_order_sound G (nodes G)). rewrite E. now left. }
    split; [exact E|]. rewrite detect_fraud_value, E. eexists. reflexivity.
Qed.

Lemma simple_cycles_self_loop_and_acyclic_witness :
  (In ["C"] (simple_cycles (build_graph star)) /\
   exists fraud_scores suspicious_cycles,
     detect_fraud (build_graph star) = Some (fraud_scores, suspicious_cycles) /\
     In ["C"] suspicious_cycles) /\
  (simple_cycles (build_graph one_way) = [] /\
   exists fraud_scores, detect_fraud (build_graph one_way) = Some (fraud_scores, [])).
Proof.
  split.
  - apply (proj1 (proj2 (simple_cycles_self_loop_and_acyclic (build_graph star)))).
    reflexivity.
  - apply (proj2 (proj2 (simple_cycles_self_loop_and_acyclic (build_graph one_way)))).
    apply acyclic_by_enumeration. reflexivity.
Defined.

(** ** The path enumeration of the scorer

    [simple_paths] has fuel enough to reach every simple path, so
    [shortest_paths] holds exactly the paths of least hop count. *)

Section PathFacts.

Lemma paths_from_sound G t fuel : forall unvisited cur p,
  In p (paths_from fuel G t unvisited cur) ->
  (cur = t /\ p = [t]) \/
  (cur <> t /\ exists mid,
     p = cur :: mid ++ [t] /\ walk G cur mid t /\ NoDup (mid ++ [t]) /\
     forall x, In x (mid ++ [t]) -> In x unvisited).
Proof.
  induction fuel as [|fuel IH]; simpl; intros unv cur p Hp; [contradiction|].
  destruct (String.eqb_spec cur t) as [->|N].
  - destruct Hp as [<-|[]]. now left.
  - right. split; [exact N|].
    apply in_map_iff in Hp. destruct Hp as [q [<- Hq]].
    apply in_flat_map in Hq. destruct Hq as [w [Hw Hq]].
    apply has_edge_successor in Hw.
    destruct (mem w unv) eqn:M; [|contradiction]. apply mem_In in M.
    destruct (IH _ _ _ Hq) as [[-> ->]|[Nw [mid [-> [W [ND Hin]]]]]].
    + exists []. simpl. repeat split; auto.
      * repeat constructor. simpl. tauto.
      * intros x [<-|[]]. exact M.
    + exists (w :: mid). simpl. repeat split; auto.
      * constructor; [|exact ND]. intros Hx. apply Hin, In_discard in Hx. tauto.
      * intros x [<-|Hx]; [exact M|]. apply Hin, In_discard in Hx. tauto.
Qed.

Lemma paths_from_complete G t mid : forall fuel unvisited cur,
  cur <> t -> walk G cur mid t -> NoDup (mid ++ [t]) ->
  (forall x, In x (mid ++ [t]) -> In x unvisited) ->
  List.length mid + 1 < fuel ->
  In (cur :: mid ++ [t]) (paths_from fuel G t unvisited cur).
Proof.
  induction mid as [|w mid IH]; intros fuel unv cur N W ND Hin Hf;
    (destruct fuel as [|fuel]; [lia|]); simpl in *;
    (destruct (String.eqb_spec cur t) as [|_]; [contradiction|]);
    apply in_map; apply in_flat_map.
  - exists t. split; [now apply has_edge_successor|].
    rewrite (proj2 (mem_In t unv) (Hin t (or_introl eq_refl))).
    destruct fuel as [|fuel]; [lia|]. simpl.
    rewrite String.eqb_refl. now left.
  - destruct W as [W0 W]. exists w. split; [now apply has_edge_successor|].
    rewrite (proj2 (mem_In w unv) (Hin w (or_introl eq_refl))).
    inversion ND as [|? ? Hw ND']; subst.
    apply IH; [| exact W | exact ND' | | lia].
    + intros ->. apply Hw. apply in_or_app. right. now left.
    + intros x Hx. apply In_discard. split; [apply Hin; now right|].
      intros ->. contradiction.
Qed.

Lemma walk_target_is_node G r : wf G -> forall x z,
  walk G x r z -> In z (nodes G).
Proof.
  intros HW. induction r as [|w r IH]; simpl; intros x z W.
  - apply has_edge_successor in W. exact (proj2 (wf_adj G x HW) z W).
  - destruct W as [_ W]. exact (IH w z W).
Qed.

Lemma simple_paths_spec G s t p : wf G -> s <> t ->
  (In p (simple_paths G s t) <->
   exists mid, p = s :: mid ++ [t] /\ walk G s mid t /\
               NoDup (s :: mid ++ [t])).
Proof.
  intros HW N. unfold simple_paths. split.
  - intros H. apply paths_from_sound in H.
    destruct H as [[E _]|[_ [mid [-> [W [ND Hin]]]]]]; [contradiction|].
    exists mid. repeat split; auto. constructor; [|exact ND].
    intros Hs. apply Hin, In_discard in Hs. tauto.
  - intros [mid [-> [W ND]]]. inversion ND as [|? ? Hs ND']; subst.
    assert (Hin : forall x, In x (mid ++ [t]) -> In x (discard s (nodes G))).
    { intros x Hx. apply In_discard. split; [|intros ->; contradiction].
      apply in_app_or in Hx. destruct Hx as [Hx|[<-|[]]].
      - apply (walk_nodes G mid s t W). now right.
      - exact (walk_target_is_node G mid HW s t W). }
    apply paths_from_complete; auto.
    pose proof (NoDup_incl_length ND' Hin) as L1.
    pose proof (filter_length_le (fun y => negb (String.eqb y s)) (nodes G))
      as L2.
    fold (discard s (nodes G)) in L2. rewrite length_app in L1. simpl in L1.
    lia.
Qed.

Lemma fold_min_le l : forall a,
  fold_left Nat.min l a <= a /\
  (forall x, In x l -> fold_left Nat.min l a <= x) /\
  In (fold_left Nat.min l a) (a :: l).
Proof.
  induction l as [|b l IH]; simpl; intros a.
  - split; [apply Nat.le_refl|]. split; [intros x [] | now left].
  - destruct (IH (Nat.min a b)) as [H1 [H2 H3]].
    split; [lia|]. split.
    + intros x [<-|Hx]; [lia | now apply H2].
    + destruct H3 as [H3|H3]; [|right; right; exact H3].
      destruct (Nat.min_spec a b) as [[_ E]|[_ E]]; rewrite E in H3 |- *.
      * now left.
      * right. now left.
Qed.

Lemma shortest_paths_spec G s t p :
  In p (shortest_paths G s t) <->
  In p (simple_paths G s t) /\
  forall q, In q (simple_paths G s t) -> List.length p <= List.length q.
Proof.
  unfold shortest_paths. cbv zeta. rewrite filter_In, Nat.eqb_eq.
  destruct (simple_paths G s t) as [|p0 ps] eqn:E.
  - simpl. tauto.
  - unfold min_length.
    destruct (fold_min_le (map (@List.length string) ps) (List.length p0))
      as [H1 [H2 H3]].
    set (m := fold_left Nat.min (map (@List.length string) ps)
                (List.length p0)) in *.
    assert (Hmin : forall q, In q (p0 :: ps) -> m <= List.length q).
    { intros q [<-|Hq]; [exact H1 | apply H2; now apply in_map]. }
    split.
    + intros [Hp Hm]. split; [exact Hp|]. intros q Hq. rewrite Hm. auto.
    + intros [Hp Hle]. split; [exact Hp|].
      apply Nat.le_antisymm; [|now apply Hmin].
      change (List.length p0 :: map (@List.length string) ps)
        with (map (@List.length string) (p0 :: ps)) in H3.
      apply in_map_iff in H3. destruct H3 as [q [<- Hq]]. now apply Hle.
Qed.

End PathFacts.

(** ** Sample runs *)

Lemma visualize_graph_cycle_edges_witness :
  exists net,
    visualize_graph blank blank (build_graph triangle) triangle_scores
      [["A"; "B"; "C"]] = Some net /\
    map (fun e => (e_from e, e_to e)) (net_edges net)
      = map (fun '(u, v, _) => (u, v)) (edges (build_graph triangle)) /\
    (forall edge, In edge (net_edges net) ->
       (is_cycle_edge edge <->
        exists cycle, In cycle [["A"; "B"; "C"]] /\
                      follows cycle (e_from edge) (e_to edge))) /\
    ([["A"; "B"; "C"]] = [] ->
       forall edge, In edge (net_edges net) -> ~ is_cycle_edge edge).
Proof.
  apply (visualize_graph_cycle_edges blank blank (build_graph triangle)
           triangle_scores [["A"; "B"; "C"]]).
  - auto with graph.
  - simpl. tauto.
Defined.

Lemma parameters_fixed_at_defaults_witness :
  (exists scores,
     detect_fraud (build_graph triangle)
       = Some (scores,
               spec_filter_suspicious 5 (simple_cycles (build_graph triangle)))) /\
  (forall n, In n (net_nodes triangle_net) ->
     exists score,
       PyDict.get (n_id n) triangle_scores = Some score /\
       n_color n
         = (if spec_is_high_risk (1 # 10) score then "red" else "green") /\
       (n_color n = "red" <-> (1 # 10 < score)%Q)).
Proof.
  apply (parameters_fixed_at_defaults blank blank (build_graph triangle)
           triangle_scores [["A"; "B"; "C"]] triangle_net).
  reflexivity.
Defined.

Lemma detect_fraud_scores_bounded_witness :
  exists fraud_scores suspicious_cycles,
    detect_fraud (build_graph star) = Some (fraud_scores, suspicious_cycles) /\
    PyDict.keys fraud_scores = nodes (build_graph star) /\
    (forall v, In v (nodes (build_graph star)) ->
       exists score, PyDict.get v fraud_scores = Some score /\
                     (0 <= score <= 1)%Q) /\
    (forall v score, PyDict.get v fraud_scores = Some score ->
       in_degree (build_graph star) v = 0 ->
       out_degree (build_graph star) v = 0 -> (score == 0)%Q).
Proof.
  apply (detect_fraud_scores_bounded (build_graph star)).
  auto with graph.
Defined.

(** Scenario A of the spec: one cycle, every node scored 1/2, the three
    edges rewritten as cycle edges. *)
Example detect_fraud_triangle :
  detect_fraud (build_graph triangle)
  = Some ([("A", 1 # 2); ("B", 1 # 2); ("C", 1 # 2)]%Q, [["A"; "B"; "C"]]).
Proof. reflexivity. Qed.

Example triangle_edges_flagged :
  map e_color (net_edges triangle_net) = ["purple"; "purple"; "purple"].
Proof. reflexivity. Qed.

(** The hub of the star lies on two of the six ordered pairs. *)
Example star_hub_score :
  option_map (fun r => PyDict.get "H" (fst r)) (detect_fraud (build_graph star))
  = Some (Some (2 # 6)%Q).
Proof. reflexivity. Qed.

(** * More of the program

    ** The graph of a table *)

Section BuildFacts.

Lemma nodes_add_edge G u v a x :
  In x (nodes (add_edge u v a G)) <-> x = u \/ x = v \/ In x (nodes G).
Proof.
  unfold add_edge.
  set (G2 := add_node_if_absent v (add_node_if_absent u G)).
  assert (H2 : forall y, In y (nodes G2) <-> y = v \/ y = u \/ In y (nodes G)).
  { intros y. unfold G2. now rewrite !nodes_add_node_if_absent. }
  unfold nodes at 1. rewrite PyDictFacts.keys_set_present.
  - fold (nodes G2). rewrite H2. tauto.
  - fold (nodes G2). apply H2. auto.
Qed.

Lemma has_edge_get_edge_data G u v :
  has_edge G u v = true <-> exists dd, get_edge_data G u v = Some dd.
Proof.
  unfold has_edge, get_edge_data, PyDict.contains.
  destruct (PyDict.get v (adj G u)) as [dd|].
  - split; [eauto | reflexivity].
  - split; [discriminate | intros [dd H]; discriminate].
Qed.

Lemma edge_listed_iff G u v dd : wf G ->
  (In (u, v, dd) (edges G) <-> get_edge_data G u v = Some dd).
Proof.
  intros HW. pose proof (edges_between_get G u v HW) as HE. split.
  - intros Hin.
    assert (Hb : In (u, v, dd) (edges_between G u v)).
    { apply filter_In. split; [exact Hin|]. simpl.
      now rewrite !String.eqb_refl. }
    rewrite HE in Hb. destruct (get_edge_data G u v) as [d|];
      [|contradiction].
    destruct Hb as [Hb|[]]. congruence.
  - intros Hg. rewrite Hg in HE.
    assert (Hb : In (u, v, dd) (edges_between G u v))
      by (rewrite HE; now left).
    now apply filter_In in Hb.
Qed.

Lemma rows_of_pair_nonempty df u v :
  rows_of_pair u v df <> [] <->
  exists row, In row df /\ Lender row = u /\ Borrower row = v.
Proof.
  unfold rows_of_pair. split.
  - destruct (filter (is_pair u v) df) as [|row l] eqn:E; [congruence|].
    intros _. assert (H : In row (filter (is_pair u v) df))
      by (rewrite E; now left).
    apply filter_In in H. destruct H as [H1 H2]. unfold is_pair in H2.
    apply andb_true_iff in H2. destruct H2 as [A B].
    apply String.eqb_eq in A, B. eauto.
  - intros [row [H1 [H2 H3]]] E.
    assert (H : In row (filter (is_pair u v) df)).
    { apply filter_In. split; [exact H1|]. unfold is_pair.
      now rewrite H2, H3, !String.eqb_refl. }
    rewrite E in H. contradiction.
Qed.

Lemma get_edge_data_build_graph_some df u v :
  (exists dd, get_edge_data (build_graph df) u v = Some dd) <->
  exists row, In row df /\ Lender row = u /\ Borrower row = v.
Proof.
  rewrite get_edge_data_build_graph, <- rows_of_pair_nonempty.
  destruct (rows_of_pair u v df) as [|r l] using rev_ind.
  - simpl. split; [intros [dd H]; discriminate | congruence].
  - rewrite rev_app_distr. simpl. split; [|eauto].
    intros _ E. now destruct l.
Qed.

Lemma count_occ_ends
    (dec : forall x y : string * string, {x = y} + {x <> y})
    (l : list (string * string * EdgeData)) u v :
  count_occ dec (map ends_of l) (u, v)
  = List.length (filter (is_edge_of u v) l).
Proof.
  induction l as [|[[a b] dd] l IH]; simpl; [reflexivity|].
  destruct (dec (a, b) (u, v)) as [E|E].
  - injection E as -> ->. rewrite !String.eqb_refl. simpl. now rewrite IH.
  - destruct (String.eqb_spec a u) as [->|N]; simpl; [|exact IH].
    destruct (String.eqb_spec b v) as [->|N']; [congruence | exact IH].
Qed.

Lemma edges_ends_NoDup G : wf G -> NoDup (map ends_of (edges G)).
Proof.
  intros HW.
  assert (dec : forall x y : string * string, {x = y} + {x <> y})
    by (decide equality; apply string_dec).
  apply (NoDup_count_occ dec). intros [u v]. rewrite count_occ_ends.
  fold (edges_between G u v). rewrite (edges_between_get G u v HW).
  destruct (get_edge_data G u v); simpl; lia.
Qed.

Lemma edge_ends_iff_rows df u v :
  In (u, v) (map ends_of (edges (build_graph df))) <->
  In (u, v) (map pair_of df).
Proof.
  rewrite !in_map_iff. split.
  - intros [[[a b] dd] [E Hin]]. simpl in E. injection E as -> ->.
    apply (edge_listed_iff _ u v dd (wf_build_graph df)) in Hin.
    destruct (proj1 (get_edge_data_build_graph_some df u v))
      as [row [H1 [H2 H3]]]; [eauto|].
    exists row. split; [|exact H1]. unfold pair_of. congruence.
  - intros [row [E Hin]]. unfold pair_of in E. injection E as Hl Hb.
    destruct (proj2 (get_edge_data_build_graph_some df u v)) as [dd Hd];
      [eauto|].
    exists (u, v, dd). split; [reflexivity|].
    now apply (edge_listed_iff _ u v dd (wf_build_graph df)).
Qed.

End BuildFacts.

(** X1. The nodes of the graph are exactly the lenders and borrowers of the
    table: no participant is dropped and no node is invented. *)
Theorem build_graph_nodes (df : DataFrame) (x : string) :
  In x (nodes (build_graph df)) <->
  exists row, In row df /\ (Lender row = x \/ Borrower row = x).
Proof.
  induction df as [|row df IH] using rev_ind.
  - simpl. split; [tauto | intros [row [[] _]]].
  - rewrite build_graph_app, nodes_add_edge, IH. split.
    + intros [->|[->|[r [Hr Hx]]]].
      * exists row. split; [apply in_or_app; right; now left | now left].
      * exists row. split; [apply in_or_app; right; now left | now right].
      * exists r. split; [apply in_or_app; now left | exact Hx].
    + intros [r [Hr Hx]]. apply in_app_or in Hr.
      destruct Hr as [Hr|[<-|[]]].
      * right. right. eauto.
      * destruct Hx as [<-|<-]; auto.
Qed.

(** X2. The graph has an edge from [u] to [v] exactly when some row of the
    table lends from [u] to [v]; a row with lender = borrower gives a
    self-loop. *)
Theorem build_graph_has_edge (df : DataFrame) (u v : string) :
  has_edge (build_graph df) u v = true <->
  exists row, In row df /\ Lender row = u /\ Borrower row = v.
Proof.
  rewrite has_edge_get_edge_data. apply get_edge_data_build_graph_some.
Qed.

(** X3. What [build_graph] returns is a consistent graph: no node and no
    ordered pair is listed twice, both end points of every edge are nodes,
    and the attributes listed with an edge are the ones a lookup of the
    pair returns. *)
Theorem build_graph_consistent (df : DataFrame) :
  NoDup (nodes (build_graph df)) /\
  NoDup (map ends_of (edges (build_graph df))) /\
  forall u v dd, In (u, v, dd) (edges (build_graph df)) ->
    In u (nodes (build_graph df)) /\ In v (nodes (build_graph df)) /\
    get_edge_data (build_graph df) u v = Some dd.
Proof.
  pose proof (wf_build_graph df) as HW.
  split; [exact (proj1 HW)|]. split; [now apply edges_ends_NoDup|].
  intros u v dd Hin.
  destruct (edges_endpoints _ u v dd HW Hin) as [Hu Hv].
  repeat split; auto. now apply edge_listed_iff.
Qed.

(** X4. The graph never has more edges than the table has rows, and it has
    as many when no two rows share an ordered (lender, borrower) pair. *)
Theorem build_graph_edge_count (df : DataFrame) :
  List.length (edges (build_graph df)) <= List.length df /\
  (NoDup (map pair_of df) ->
   List.length (edges (build_graph df)) = List.length df).
Proof.
  pose proof (edges_ends_NoDup _ (wf_build_graph df)) as ND.
  assert (Hincl : incl (map ends_of (edges (build_graph df))) (map pair_of df)).
  { intros [u v] H. now apply edge_ends_iff_rows. }
  split.
  - pose proof (NoDup_incl_length ND Hincl) as L.
    now rewrite !length_map in L.
  - intros NDdf.
    assert (P : Permutation (map ends_of (edges (build_graph df)))
                            (map pair_of df)).
    { apply NoDup_Permutation; [exact ND | exact NDdf|].
      intros [u v]. apply edge_ends_iff_rows. }
    apply Permutation_length in P. now rewrite !length_map in P.
Qed.

Lemma build_graph_edge_count_witness :
  List.length (edges (build_graph triangle)) = List.length triangle.
Proof.
  apply (proj2 (build_graph_edge_count triangle)).
  repeat constructor; simpl; intuition discriminate.
Defined.

(** ** The network of a graph *)

Section NetworkFacts.
Variables format_score format_weight : Q -> string.

Lemma foldM_raises {A S : Type} (f : S -> A -> option S) (a : A) l :
  In a l -> (forall s, f s a = None) -> forall s, foldM f l s = None.
Proof.
  intros Hin Hf. induction l as [|b l IH]; intros s; [contradiction|].
  simpl. destruct Hin as [->|Hin].
  - now rewrite Hf.
  - destruct (f s b); simpl; auto.
Qed.

Lemma visualize_graph_returns G fraud_scores suspicious_cycles :
  wf G ->
  (forall n, In n (nodes G) -> In n (PyDict.keys fraud_scores)) ->
  exists net,
    visualize_graph format_score format_weight G fraud_scores
      suspicious_cycles = Some net.
Proof using Type.
  intros HW Hs. unfold visualize_graph, add_nodes, add_edges.
  destruct (add_nodes_loop format_score fraud_scores (nodes G)
              empty_network Hs) as [n1 [E1 [_ Ids1]]].
  rewrite E1. simpl.
  destruct (add_edges_loop format_weight (edges G) n1) as [n2 [E2 _]].
  { intros u v dd H. destruct (edges_endpoints G u v dd HW H).
    split; apply Ids1; now right. }
  rewrite E2. simpl.
  destruct (highlight_cycles_spec suspicious_cycles n2) as [n3 [E3 _]].
  eauto.
Qed.

(** *** Nodes *)

Lemma add_nodes_listed fraud_scores l : forall net net',
  NoDup l -> (forall n, In n l -> ~ In n (node_ids net)) ->
  foldM (fun net node =>
           score <- PyDict.get node fraud_scores ;;
           Some (net_add_node (node_of format_score node score) net))
        l net = Some net' ->
  exists added,
    net_nodes net' = net_nodes net ++ added /\
    net_edges net' = net_edges net /\
    Forall2 (fun n node =>
               exists score, PyDict.get n fraud_scores = Some score /\
                             node = node_of format_score n score)
            l added.
Proof using Type.
  induction l as [|a l IH]; simpl; intros net net' ND Hfresh H.
  - injection H as <-. exists []. rewrite app_nil_r. auto.
  - destruct (PyDict.get a fraud_scores) as [score|] eqn:E;
      [|discriminate]. simpl in H.
    inversion ND as [|? ? Ha ND']; subst.
    assert (Hadd : net_add_node (node_of format_score a score) net
                   = mkNetwork (net_nodes net ++ [node_of format_score a score])
                               (net_edges net)).
    { unfold net_add_node. simpl.
      now rewrite (proj2 (mem_false a (node_ids net)) (Hfresh a (or_introl eq_refl))). }
    rewrite Hadd in H.
    assert (Hfresh' : forall n, In n l ->
              ~ In n (node_ids
                        (mkNetwork
                           (net_nodes net ++ [node_of format_score a score])
                           (net_edges net)))).
    { intros n Hn. unfold node_ids. simpl. rewrite map_app, in_app_iff.
      simpl. intros [Hx|[<-|[]]]; [|contradiction].
      apply (Hfresh n); [now right | exact Hx]. }
    destruct (IH _ _ ND' Hfresh' H) as [added [H1 [H2 H3]]].
    exists (node_of format_score a score :: added). simpl in *.
    split; [now rewrite H1, <- app_assoc|]. split; [exact H2|].
    constructor; [eauto | exact H3].
Qed.

Lemma add_nodes_edges fraud_scores l : forall net net',
  foldM (fun net node =>
           score <- PyDict.get node fraud_scores ;;
           Some (net_add_node (node_of format_score node score) net))
        l net = Some net' ->
  net_edges net' = net_edges net.
Proof using Type.
  induction l as [|a l IH]; simpl; intros net net' H.
  - now injection H as <-.
  - destruct (PyDict.get a fraud_scores) as [score|]; [|discriminate].
    simpl in H. rewrite (IH _ _ H). apply net_edges_add_node.
Qed.

Lemma add_edges_listed es : forall net net',
  foldM (fun net e => net_add_edge (edge_of format_weight e) net) es net
    = Some net' ->
  net_edges net' = net_edges net ++ map (edge_of format_weight) es.
Proof using Type.
  induction es as [|e es IH]; simpl; intros net net' H.
  - injection H as <-. now rewrite app_nil_r.
  - unfold net_add_edge at 1 in H.
    destruct (mem (e_from (edge_of format_weight e)) (node_ids net)
              && mem (e_to (edge_of format_weight e)) (node_ids net));
      [|discriminate].
    simpl in H. rewrite (IH _ _ H). simpl. now rewrite <- app_assoc.
Qed.

(** *** Edges *)

Lemma append_empty_r (s : string) : (s ++ "")%string = s.
Proof. induction s as [|c s IH]; simpl; [reflexivity | now rewrite IH]. Qed.

Lemma append_assoc_r (a b c : string) :
  ((a ++ b) ++ c)%string = (a ++ (b ++ c))%string.
Proof. induction a as [|x a IH]; simpl; [reflexivity | now rewrite IH]. Qed.

Lemma mark_all_value steps : forall e,
  mark_all steps e =
  let k := List.length
             (filter (fun '(source, target) =>
                        String.eqb (e_from e) source
                        && String.eqb (e_to e) target) steps) in
  {| e_from := e_from e;
     e_to := e_to e;
     e_title := e_title e ++ repeat_text " (Cycle)" k;
     e_color := if Nat.eqb k 0 then e_color e else "purple" |}.
Proof.
  unfold mark_all. induction steps as [|[s t] steps IH]; intros e; simpl.
  - rewrite append_empty_r. now destruct e.
  - rewrite IH. unfold mark_cycle_edge.
    destruct (String.eqb (e_from e) s && String.eqb (e_to e) t); simpl.
    + rewrite append_assoc_r.
      now destruct (Nat.eqb _ 0).
    + reflexivity.
Qed.

Lemma highlight_step_value cycle net i :
  i < List.length cycle ->
  highlight_step cycle net i =
  Some (mkNetwork (net_nodes net)
          (map (mark_cycle_edge (nth i cycle "")
                  (nth ((i + 1) mod List.length cycle) cycle ""))
               (net_edges net))).
Proof.
  intros Hi. unfold highlight_step.
  rewrite (nth_error_nth' cycle "" Hi). simpl.
  assert (Hj : (i + 1) mod List.length cycle < List.length cycle)
    by (apply Nat.mod_upper_bound; lia).
  now rewrite (nth_error_nth' cycle "" Hj).
Qed.

Lemma highlight_indices cycle l : forall net,
  (forall i, In i l -> i < List.length cycle) ->
  foldM (highlight_step cycle) l net =
  Some (mkNetwork (net_nodes net)
          (map (mark_all
                  (map (fun i => (nth i cycle "",
                                  nth ((i + 1) mod List.length cycle) cycle ""))
                       l))
               (net_edges net))).
Proof.
  induction l as [|i l IH]; simpl; intros net Hl.
  - destruct net as [ns es]. simpl. now rewrite map_id.
  - rewrite highlight_step_value by auto. simpl.
    rewrite IH by auto. simpl. now rewrite map_map.
Qed.

Lemma highlight_cycles_value cycles : forall net,
  highlight_cycles cycles net =
  Some (mkNetwork (net_nodes net)
          (map (mark_all (flat_map cycle_steps cycles)) (net_edges net))).
Proof.
  unfold highlight_cycles.
  induction cycles as [|c cycles IH]; simpl; intros net.
  - destruct net as [ns es]. simpl. now rewrite map_id.
  - unfold highlight_cycle at 1. rewrite highlight_indices.
    + simpl. rewrite IH. simpl. rewrite map_map. do 2 f_equal.
      apply map_ext. intros e. unfold mark_all, cycle_steps.
      now rewrite fold_left_app.
    + intros i Hi. apply in_seq in Hi. lia.
Qed.

Lemma visualize_graph_parts G fraud_scores suspicious_cycles net :
  visualize_graph format_score format_weight G fraud_scores
    suspicious_cycles = Some net ->
  exists n1,
    add_nodes format_score G fraud_scores empty_network = Some n1 /\
    net_nodes net = net_nodes n1 /\
    net_edges net = map (mark_all (flat_map cycle_steps suspicious_cycles))
                        (map (edge_of format_weight) (edges G)).
Proof using Type.
  unfold visualize_graph. intros H.
  destruct (add_nodes format_score G fraud_scores empty_network)
    as [n1|] eqn:E1; [|discriminate]. simpl in H.
  destruct (add_edges format_weight G n1) as [n2|] eqn:E2; [|discriminate].
  simpl in H. rewrite highlight_cycles_value in H. injection H as <-.
  exists n1. split; [reflexivity|]. simpl.
  rewrite (add_edges_nodes format_weight _ _ _ E2).
  split; [reflexivity|].
  rewrite (add_edges_listed _ _ _ E2).
  unfold add_nodes in E1. rewrite (add_nodes_edges _ _ _ _ E1).
  reflexivity.
Qed.

End NetworkFacts.

(** X5. On a graph, [visualize_graph] raises (the [KeyError] of
    [fraud_scores[node]]) exactly when some node of the graph has no score;
    the cycles given never make it raise. *)
Theorem visualize_graph_raises_iff (format_score format_weight : Q -> string)
    (G : DiGraph) (fraud_scores : PyDict.t Q)
    (suspicious_cycles : list (list string)) :
  wf G ->
  (visualize_graph format_score format_weight G fraud_scores suspicious_cycles
     = None
   <-> exists n, In n (nodes G) /\ PyDict.get n fraud_scores = None).
Proof.
  intros HW. split.
  - intros HN.
    destruct (existsb (fun n => negb (PyDict.contains n fraud_scores)) (nodes G))
      eqn:E.
    + apply existsb_exists in E. destruct E as [n [Hn Hc]].
      exists n. split; [exact Hn|]. apply negb_true_iff in Hc.
      apply PyDictFacts.get_None. now apply PyDictFacts.contains_false.
    + exfalso.
      destruct (visualize_graph_returns format_score format_weight G
                  fraud_scores suspicious_cycles HW) as [net Hnet];
        [|congruence].
      intros n Hn. apply PyDictFacts.contains_In.
      destruct (PyDict.contains n fraud_scores) eqn:C; [reflexivity|].
      assert (X : existsb (fun n => negb (PyDict.contains n fraud_scores))
                    (nodes G) = true)
        by (apply existsb_exists; exists n; now rewrite C).
      congruence.
  - intros [n [Hn Hg]]. unfold visualize_graph, add_nodes.
    rewrite (foldM_raises _ n (nodes G) Hn); [reflexivity|].
    intros s. now rewrite Hg.
Qed.

Lemma visualize_graph_raises_iff_witness :
  visualize_graph blank blank (build_graph triangle) [("A", 1 # 2)]%Q []
    = None
  <-> exists n, In n (nodes (build_graph triangle)) /\
                PyDict.get n [("A", 1 # 2)]%Q = None.
Proof.
  apply (visualize_graph_raises_iff blank blank (build_graph triangle)).
  auto with graph.
Defined.



(** X7. The network lists one edge dict per edge of the graph, in the order
    of the graph, with the end points of the edge.  If the highlighting
    loops come across the pair of the edge [k] times, the title is the
    amount and label followed by [k] copies of " (Cycle)", and the colour is
    purple when [k > 0], else orange for the label "Fraud" and gray for any
    other label. *)
Theorem visualize_graph_edges (format_score format_weight : Q -> string)
    (G : DiGraph) (fraud_scores : PyDict.t Q)
    (suspicious_cycles : list (list string)) (net : Network) :
  visualize_graph format_score format_weight G fraud_scores suspicious_cycles
    = Some net ->
  net_edges net =
  map (fun e : string * string * EdgeData =>
         let '(u, v, dd) := e in
         let k := occurrences suspicious_cycles u v in
         {| e_from := u;
            e_to := v;
            e_title := ("$" ++ format_weight (weight dd) ++ " | " ++ label dd)
                       ++ repeat_text " (Cycle)" k;
            e_color := if Nat.eqb k 0
                       then (if String.eqb (label dd) "Fraud"
                             then "orange" else "gray")
                       else "purple" |})
      (edges G).
Proof.
  intros H.
  destruct (visualize_graph_parts format_score format_weight _ _ _ _ H)
    as [n1 [_ [_ ->]]].
  rewrite map_map. apply map_ext. intros [[u v] dd].
  rewrite mark_all_value. reflexivity.
Qed.

Lemma visualize_graph_edges_witness :
  net_edges triangle_net =
  map (fun e : string * string * EdgeData =>
         let '(u, v, dd) := e in
         let k := occurrences [["A"; "B"; "C"]] u v in
         {| e_from := u;
            e_to := v;
            e_title := ("$" ++ blank (weight dd) ++ " | " ++ label dd)
                       ++ repeat_text " (Cycle)" k;
            e_color := if Nat.eqb k 0
                       then (if String.eqb (label dd) "Fraud"
                             then "orange" else "gray")
                       else "purple" |})
      (edges (build_graph triangle)).
Proof.
  apply (visualize_graph_edges blank blank (build_graph triangle)
           triangle_scores [["A"; "B"; "C"]] triangle_net).
  reflexivity.
Defined.

(** ** The analysis of [main] *)

Lemma cycle_line_value (cycle : list string) :
  cycle <> [] ->
  cycle_line cycle
  = Some (String.concat " → " cycle ++ " → " ++ hd "" cycle)%string.
Proof. destruct cycle; [congruence | reflexivity]. Qed.

Lemma report_returns (cycles : list (list string)) :
  (forall c, In c cycles -> c <> []) ->
  exists lines, report cycles = Some lines /\
                List.length lines = Nat.max 1 (List.length cycles).
Proof.
  intros H. destruct cycles as [|c cycles]; [eexists; split; reflexivity|].
  unfold report.
  rewrite (mapM_value cycle_line
             (fun c => (String.concat " → " c ++ " → " ++ hd "" c)%string)).
  - eexists. split; [reflexivity|]. rewrite length_map. simpl. lia.
  - intros a Ha. now apply cycle_line_value, H.
Qed.

(** X8. For every table, also the empty one, the analysis of [main] runs
    through without raising: [detect_fraud] returns scores for all nodes,
    the report has one line per suspicious cycle (one line when there is
    none), and the network drawn has the nodes and the edges of the graph,
    in order.  (Scores and cycles are those of the modelled networkx
    calls.) *)
Theorem main_analysis_returns (format_score format_weight : Q -> string)
    (df : DataFrame) :
  exists fraud_scores suspicious_cycles lines net,
    detect_fraud (build_graph df) = Some (fraud_scores, suspicious_cycles) /\
    main_analysis format_score format_weight df = Some (lines, net) /\
    List.length lines = Nat.max 1 (List.length suspicious_cycles) /\
    map n_id (net_nodes net) = nodes (build_graph df) /\
    map (fun e => (e_from e, e_to e)) (net_edges net)
      = map ends_of (edges (build_graph df)).
Proof.
  pose proof (wf_build_graph df) as HW.
  unfold main_analysis. cbv zeta. rewrite detect_fraud_value.
  do 2 eexists. simpl.
  match goal with |- context [report ?cs] =>
    destruct (report_returns cs) as [lines [Hr Hl]] end.
  { intros c Hc. apply filter_In in Hc. destruct Hc as [Hc _].
    exact (proj1 (cycles_in_order_sound _ _ _ Hc)). }
  rewrite Hr. simpl.
  match goal with |- context [visualize_graph _ _ _ ?sc ?cs] =>
    destruct (visualize_graph_returns format_score format_weight
                (build_graph df) sc cs HW) as [net Hnet] end.
  { intros n Hn. now rewrite keys_tabulate. }
  rewrite Hnet. simpl. exists lines, net.
  split; [reflexivity|]. split; [reflexivity|]. split; [exact Hl|].
  destruct (visualize_graph_parts _ _ _ _ _ _ Hnet) as [n1 [E1 [-> ->]]].
  split.
  - destruct (add_nodes_listed format_score _ (nodes (build_graph df))
                empty_network n1 (proj1 HW) (fun _ _ F => F) E1)
      as [added [-> [_ F]]].
    simpl. clear - F. induction F as [|n node l l' [score [_ ->]] F IH];
      simpl; [reflexivity | now rewrite IH].
  - rewrite !map_map. apply map_ext. intros [[u v] dd].
    now rewrite mark_all_value.
Qed.

(** ** The generated table *)

Section DataFacts.

Lemma str_nat_inj i j : str_nat i = str_nat j -> i = j.
Proof.
  unfold str_nat. intros H. apply Unsigned.to_uint_inj.
  apply (f_equal NilEmpty.uint_of_string) in H.
  rewrite !NilEmpty.usu in H. congruence.
Qed.

Lemma NoDup_map_inj {A B : Type} (f : A -> B) l :
  (forall x y, f x = f y -> x = y) -> NoDup l -> NoDup (map f l).
Proof.
  intros Hf. induction 1 as [|a l Ha ND IH]; simpl; constructor; auto.
  intros Hin. apply in_map_iff in Hin. destruct Hin as [x [E Hx]].
  apply Hf in E. now subst.
Qed.

Lemma map_nth_seq (l : list string) :
  map (fun i => nth i l "") (seq 0 (List.length l)) = l.
Proof.
  induction l as [|a l IH]; simpl; [reflexivity|]. f_equal.
  rewrite <- seq_shift, map_map. exact IH.
Qed.

Lemma fraud_loans_value fraud_users amount :
  fraud_loans fraud_users amount =
  Some (map (fun i =>
               mkLoan (nth i fraud_users "")
                      (nth ((i + 1) mod List.length fraud_users)
                           fraud_users "")
                      (amount i) "Fraud")
            (seq 0 (List.length fraud_users))).
Proof.
  unfold fraud_loans. apply mapM_value. intros i Hi.
  apply in_seq in Hi.
  rewrite (nth_error_nth' fraud_users "") by lia. simpl.
  rewrite (nth_error_nth' fraud_users "")
    by (apply Nat.mod_upper_bound; lia).
  reflexivity.
Qed.

(** Each step of the ring is a row of the fraud loop. *)
Lemma follows_fraud_row fraud_users amount u v :
  follows fraud_users u v ->
  exists i,
    In (mkLoan u v (amount i) "Fraud")
       (map (fun i =>
               mkLoan (nth i fraud_users "")
                      (nth ((i + 1) mod List.length fraud_users)
                           fraud_users "")
                      (amount i) "Fraud")
            (seq 0 (List.length fraud_users))).
Proof.
  intros [i [Hi [A B]]]. exists i. apply in_map_iff. exists i. split.
  - rewrite (nth_error_nth _ _ "" A), (nth_error_nth _ _ "" B).
    reflexivity.
  - apply in_seq. lia.
Qed.

End DataFacts.

(** X9. [generate_data] names [num_users] participants, and their ids are
    pairwise distinct. *)
Theorem users_distinct (num_users : nat) :
  List.length (users num_users) = num_users /\ NoDup (users num_users).
Proof.
  unfold users. split; [now rewrite length_map, length_seq|].
  apply NoDup_map_inj; [|apply seq_NoDup].
  intros i j H. simpl in H. injection H as H. now apply str_nat_inj.
Qed.

(** X10. The fraud loop never raises and writes one row per fraud user, in
    order: row [i] lends from user [i] to user [(i+1) mod len], with the
    amount drawn in round [i] and the label "Fraud".  When the users are
    distinct and at least two, no row lends to its own lender. *)
Theorem fraud_loans_ring (fraud_users : list string) (amount : nat -> Q) :
  exists ring,
    fraud_loans fraud_users amount = Some ring /\
    map Lender ring = fraud_users /\
    (forall i row, nth_error ring i = Some row ->
       nth_error fraud_users ((i + 1) mod List.length fraud_users)
         = Some (Borrower row) /\
       Amount row = amount i /\ Label row = "Fraud") /\
    (NoDup fraud_users -> 2 <= List.length fraud_users ->
     forall row, In row ring -> Lender row <> Borrower row).
Proof.
  rewrite fraud_loans_value. eexists. split; [reflexivity|]. split.
  - rewrite map_map. simpl. apply map_nth_seq.
  - split.
    + intros i row H.
      assert (Hi : i < List.length fraud_users).
      { assert (Hn : nth_error
                       (map (fun i =>
                               mkLoan (nth i fraud_users "")
                                 (nth ((i + 1) mod List.length fraud_users)
                                      fraud_users "")
                                 (amount i) "Fraud")
                            (seq 0 (List.length fraud_users))) i <> None)
          by (rewrite H; discriminate).
        apply nth_error_Some in Hn.
        now rewrite length_map, length_seq in Hn. }
      rewrite nth_error_map in H.
      rewrite (nth_error_nth' (seq 0 (List.length fraud_users)) 0) in H
        by now rewrite length_seq.
      rewrite seq_nth in H by exact Hi.
      simpl in H. injection H as <-. simpl.
      split; [|split; reflexivity].
      apply nth_error_nth'. apply Nat.mod_upper_bound. lia.
    + intros ND Hlen row Hin. apply in_map_iff in Hin.
      destruct Hin as [i [<- Hi]]. apply in_seq in Hi. simpl.
      intros E. apply (proj1 (NoDup_nth fraud_users "") ND) in E;
        [| lia | apply Nat.mod_upper_bound; lia].
      destruct (Nat.eq_dec (i + 1) (List.length fraud_users)) as [F|F].
      * rewrite F, Nat.Div0.mod_same in E. lia.
      * rewrite Nat.mod_small in E by lia. lia.
Qed.

Lemma fraud_loans_ring_witness :
  exists ring,
    fraud_loans ["A"; "B"; "C"] (fun _ => 1000%Q) = Some ring /\
    map Lender ring = ["A"; "B"; "C"] /\
    (forall i row, nth_error ring i = Some row ->
       nth_error ["A"; "B"; "C"] ((i + 1) mod 3) = Some (Borrower row) /\
       Amount row = 1000%Q /\ Label row = "Fraud") /\
    (NoDup ["A"; "B"; "C"] -> 2 <= 3 ->
     forall row, In row ring -> Lender row <> Borrower row).
Proof.
  exact (fraud_loans_ring ["A"; "B"; "C"] (fun _ => 1000%Q)).
Defined.

Lemma ring_last_row_is_fraud (legit ring : list Loan) (u v : string) :
  (forall row, In row ring -> Label row = "Fraud") ->
  (exists row, In row ring /\ Lender row = u /\ Borrower row = v) ->
  exists dd, get_edge_data (build_graph (legit ++ ring)) u v = Some dd /\
             label dd = "Fraud".
Proof.
  intros Hlab Hrow. rewrite get_edge_data_build_graph.
  unfold rows_of_pair. rewrite filter_app, rev_app_distr.
  apply rows_of_pair_nonempty in Hrow. unfold rows_of_pair in Hrow.
  destruct (filter (is_pair u v) ring) as [|r l] eqn:E using rev_ind;
    [congruence|].
  rewrite rev_app_distr. simpl. eexists. split; [reflexivity|]. simpl.
  apply Hlab.
  assert (Hin : In r (filter (is_pair u v) ring))
    by (rewrite E; apply in_or_app; right; now left).
  now apply filter_In in Hin.
Qed.

(** X11. In the graph built from a generated table, every step of the
    fraud ring, from a fraud user to the next and from the last to the
    first, is an edge, and its label is "Fraud" whatever normal loans were
    drawn between the same two users. *)
Theorem fraud_ring_in_graph (draws : list (string * string * Q))
    (fraud_users : list string) (amount : nat -> Q) :
  exists df,
    generate_data_from draws fraud_users amount = Some df /\
    forall u v, follows fraud_users u v ->
      has_edge (build_graph df) u v = true /\
      exists dd, get_edge_data (build_graph df) u v = Some dd /\
                 label dd = "Fraud".
Proof.
  unfold generate_data_from. rewrite fraud_loans_value. simpl.
  eexists. split; [reflexivity|]. intros u v F.
  destruct (follows_fraud_row fraud_users amount u v F) as [i Hi].
  match goal with |- context [build_graph (_ ++ ?r)] => set (ring := r) in * end.
  destruct (ring_last_row_is_fraud (legit_loans draws) ring u v)
    as [dd [Hd Hl]].
  - intros row Hrow. unfold ring in Hrow. apply in_map_iff in Hrow.
    destruct Hrow as [j [<- _]]. reflexivity.
  - eexists. split; [exact Hi|]. split; reflexivity.
  - split; [apply has_edge_get_edge_data|]; eauto.
Qed.

Lemma rotation_length (c1 c2 : list string) :
  rotation c1 c2 -> List.length c1 = List.length c2.
Proof.
  intros [a [b [-> ->]]]. rewrite !length_app. lia.
Qed.

(** X12. When the fraud users are distinct, [detect_fraud] on the graph of
    a generated table reports the fraud ring among the suspicious cycles
    (read from one of its users) exactly when the ring has at most 5
    users, whatever normal loans surround it.  (Cycles are those of the
    modelled enumeration.) *)
Theorem fraud_ring_detected (draws : list (string * string * Q))
    (fraud_users : list string) (amount : nat -> Q) :
  NoDup fraud_users -> fraud_users <> [] ->
  exists df fraud_scores suspicious_cycles,
    generate_data_from draws fraud_users amount = Some df /\
    detect_fraud (build_graph df) = Some (fraud_scores, suspicious_cycles) /\
    (List.length fraud_users <= 5 <->
     exists cycle, rotation fraud_users cycle /\ In cycle suspicious_cycles).
Proof.
  intros ND Hne. unfold generate_data_from. rewrite fraud_loans_value. simpl.
  eexists. rewrite detect_fraud_value. do 2 eexists.
  split; [reflexivity|]. split; [reflexivity|].
  match goal with |- context [build_graph ?d] => set (df := d) in * end.
  assert (HC : simple_cycle_of (build_graph df) fraud_users).
  { split; [exact Hne|]. split; [exact ND|]. intros u v F.
    apply has_edge_get_edge_data. apply get_edge_data_build_graph_some.
    destruct (follows_fraud_row fraud_users amount u v F) as [i Hi].
    eexists. split; [unfold df; apply in_or_app; right; exact Hi|].
    split; reflexivity. }
  split.
  - intros Hlen. destruct (simple_cycles_complete _ _ HC) as [c [R Hc]].
    exists c. split; [exact R|]. apply filter_In. split; [exact Hc|].
    apply Nat.leb_le. now rewrite <- (rotation_length _ _ R).
  - intros [c [R Hc]]. apply filter_In in Hc. destruct Hc as [_ Hc].
    apply Nat.leb_le in Hc. now rewrite (rotation_length _ _ R).
Qed.

Lemma fraud_ring_detected_witness :
  exists df fraud_scores suspicious_cycles,
    generate_data_from [("C", "D", 250%Q); ("A", "C", 90%Q)]
      ["A"; "B"; "C"] (fun _ => 1000%Q) = Some df /\
    detect_fraud (build_graph df) = Some (fraud_scores, suspicious_cycles) /\
    (3 <= 5 <->
     exists cycle, rotation ["A"; "B"; "C"] cycle /\ In cycle suspicious_cycles).
Proof.
  apply (fraud_ring_detected [("C", "D", 250%Q); ("A", "C", 90%Q)]
           ["A"; "B"; "C"] (fun _ => 1000%Q)).
  - repeat constructor; simpl; intuition discriminate.
  - discriminate.
Defined.

(** ** Reported cycles in the drawing *)

Lemma cycle_steps_follows (cycle : list string) (u v : string) :
  In (u, v) (cycle_steps cycle) <-> follows cycle u v.
Proof.
  unfold cycle_steps, follows. rewrite in_map_iff. split.
  - intros [i [E Hi]]. apply in_seq in Hi. injection E as <- <-.
    exists i. split; [lia|]. split; apply nth_error_nth'; [lia|].
    apply Nat.mod_upper_bound. lia.
  - intros [i [Hi [A B]]]. exists i. split; [|apply in_seq; lia].
    now rewrite (nth_error_nth _ _ "" A), (nth_error_nth _ _ "" B).
Qed.

Lemma occurrences_zero (cycles : list (list string)) (u v : string) :
  occurrences cycles u v = 0 <->
  ~ exists cycle, In cycle cycles /\ follows cycle u v.
Proof.
  unfold occurrences. rewrite length_zero_iff_nil. split.
  - intros E [cycle [Hc F]]. apply cycle_steps_follows in F.
    assert (Hin : In (u, v)
              (filter (fun '(s, t) => String.eqb u s && String.eqb v t)
                      (flat_map cycle_steps cycles))).
    { apply filter_In. split; [apply in_flat_map; eauto|].
      now rewrite !String.eqb_refl. }
    rewrite E in Hin. contradiction.
  - intros H.
    destruct (filter (fun '(s, t) => String.eqb u s && String.eqb v t)
                     (flat_map cycle_steps cycles)) as [|[s t] l] eqn:E;
      [reflexivity|].
    exfalso. apply H.
    assert (Hin : In (s, t)
              (filter (fun '(s, t) => String.eqb u s && String.eqb v t)
                      (flat_map cycle_steps cycles)))
      by (rewrite E; now left).
    apply filter_In in Hin. destruct Hin as [Hin Hm].
    apply andb_true_iff in Hm. destruct Hm as [A B].
    apply String.eqb_eq in A, B. subst s t.
    apply in_flat_map in Hin. destruct Hin as [cycle [Hc Hs]].
    exists cycle. split; [exact Hc|]. now apply cycle_steps_follows.
Qed.

(** X13. In the analysis of [main], every step of every suspicious cycle
    that [detect_fraud] reports is drawn: the network has an edge dict from
    the one node to the next, it is purple, and its title ends with
    " (Cycle)" at least once.  (Cycles are those of the modelled
    enumeration, whose steps are edges of the graph.) *)
Theorem main_analysis_draws_cycles (format_score format_weight : Q -> string)
    (df : DataFrame) (fraud_scores : PyDict.t Q)
    (suspicious_cycles : list (list string)) (lines : list string)
    (net : Network) :
  detect_fraud (build_graph df) = Some (fraud_scores, suspicious_cycles) ->
  main_analysis format_score format_weight df = Some (lines, net) ->
  forall cycle u v, In cycle suspicious_cycles -> follows cycle u v ->
    exists edge k,
      In edge (net_edges net) /\ e_from edge = u /\ e_to edge = v /\
      e_color edge = "purple" /\
      exists dd, In (u, v, dd) (edges (build_graph df)) /\
        e_title edge
        = (("$" ++ format_weight (weight dd) ++ " | " ++ label dd)
           ++ repeat_text " (Cycle)" (S k))%string.
Proof.
  intros HD HM cycle u v Hc F.
  unfold main_analysis in HM. cbv zeta in HM. rewrite HD in HM. simpl in HM.
  destruct (report suspicious_cycles) as [ls|]; [|discriminate]. simpl in HM.
  destruct (visualize_graph format_score format_weight (build_graph df)
              fraud_scores suspicious_cycles) as [n|] eqn:HV; [|discriminate].
  simpl in HM. injection HM as _ <-.
  destruct (visualize_graph_parts _ _ _ _ _ _ HV) as [n1 [_ [_ HE]]].
  rewrite detect_fraud_value in HD. injection HD as _ <-.
  assert (Hs : In cycle (simple_cycles (build_graph df)))
    by (apply filter_In in Hc; tauto).
  destruct (cycles_in_order_sound _ _ _ Hs) as [_ [_ HU]].
  pose proof (HU u v F) as Hedge.
  apply has_edge_get_edge_data in Hedge. destruct Hedge as [dd Hdd].
  apply (edge_listed_iff _ u v dd (wf_build_graph df)) in Hdd.
  destruct (occurrences
              (filter (fun cycle => Nat.leb (List.length cycle) 5)
                      (simple_cycles (build_graph df))) u v) as [|k] eqn:Ek.
  { exfalso. apply occurrences_zero in Ek. apply Ek. eauto. }
  eexists. exists k. split.
  - rewrite HE, map_map. apply in_map_iff. exists (u, v, dd).
    split; [reflexivity | exact Hdd].
  - rewrite mark_all_value. cbv zeta. simpl e_from. simpl e_to.
    fold (occurrences
            (filter (fun cycle => Nat.leb (List.length cycle) 5)
                    (simple_cycles (build_graph df))) u v).
    rewrite Ek. simpl.
    split; [reflexivity|]. split; [reflexivity|]. split; [reflexivity|].
    exists dd. split; [exact Hdd | reflexivity].
Qed.

Lemma main_analysis_draws_cycles_witness :
  exists edge k,
    In edge (net_edges triangle_net) /\ e_from edge = "A" /\ e_to edge = "B" /\
    e_color edge = "purple" /\
    exists dd, In ("A", "B", dd) (edges (build_graph triangle)) /\
      e_title edge
      = (("$" ++ blank (weight dd) ++ " | " ++ label dd)
         ++ repeat_text " (Cycle)" (S k))%string.
Proof.
  apply (main_analysis_draws_cycles blank blank triangle triangle_scores
           [["A"; "B"; "C"]] ["A → B → C → A"] triangle_net)
    with (cycle := ["A"; "B"; "C"]).
  - reflexivity.
  - reflexivity.
  - now left.
  - exists 0. simpl. repeat split; auto.
Defined.
